(** * Verification of the graph parser, edge classifier and layout
    configurator of museum-studies (src/unnamed/part_000 and the
    GraphCanvas component in src/components/Sidebar.tsx).

    Strings are modelled as Rocq [string]s (byte strings; the Cyrillic
    keywords of the source are their UTF-8 encodings).  JavaScript numbers
    are modelled by [jsnum]: a finite rational, a signed infinity or NaN.
    The JavaScript builtins whose exact behaviour is a property of the
    runtime (parseFloat, Number::toString, String::toLowerCase,
    StringToNumber, Math.cos/sin/PI) are an interface, the class
    [JSRuntime]; every theorem below holds for every implementation of it
    unless a hypothesis says otherwise; the concrete instances at the end
    use the implementation [ConcreteRuntime.runtime]. *)

From Stdlib Require Import QArith Qround Qminmax ZArith Ascii String List Lia Lqa.
From stdpp Require Import base gmap strings list.
Import ListNotations.

Open Scope string_scope.

(* ------------------------------------------------------------------ *)
(** ** JavaScript values *)

Inductive jsnum :=
| JFin (q : Q)
| JInf (positive_sign : bool)
| JNaN.

Definition isNaN (n : jsnum) : bool :=
  match n with JNaN => true | _ => false end.

(** ToBoolean on numbers: 0 and NaN are falsy. *)
Definition num_truthy (n : jsnum) : bool :=
  match n with
  | JFin q => negb (Qeq_bool q 0)
  | JInf _ => true
  | JNaN => false
  end.

Definition num_add (a b : jsnum) : jsnum :=
  match a, b with
  | JFin x, JFin y => JFin (x + y)
  | JFin _, JInf s | JInf s, JFin _ => JInf s
  | JInf s, JInf t => if Bool.eqb s t then JInf s else JNaN
  | _, _ => JNaN
  end.

(** Multiplication by a finite positive constant (the only products the
    code forms: [* 10], [* 1.5]). *)
Definition num_scale (a : jsnum) (k : Q) : jsnum :=
  match a with
  | JFin x => JFin (x * k)
  | JInf s => JInf s
  | JNaN => JNaN
  end.

(** [a > b] for a finite [b]. *)
Definition num_gt (a : jsnum) (b : Q) : bool :=
  match a with
  | JFin x => negb (Qle_bool x b)
  | JInf s => s
  | JNaN => false
  end.

(** An attribute value: the source stores strings and numbers
    ([Record<string, any>]). *)
Inductive val :=
| VStr (s : string)
| VNum (n : jsnum).

Definition val_truthy (v : val) : bool :=
  match v with
  | VStr s => negb (String.eqb s "")
  | VNum n => num_truthy n
  end.

(** A JavaScript object with string keys, as a finite map. *)
Abbreviation obj := (gmap string val).

(** [o[k] = v] on an ordinary object: assigning a primitive to the key
    "__proto__" goes through the inherited setter and changes nothing. *)
Definition obj_set (k : string) (v : val) (o : obj) : obj :=
  if String.eqb k "__proto__" then o else <[k := v]> o.

(** [{ ...a, ...b }]: the keys of [b] win. *)
Definition obj_spread (a b : obj) : obj := b ∪ a.

(** An argument of type [any] of getEdgeColor. *)
Inductive jsval :=
| JUndefined
| JNull
| JBool (b : bool)
| JNumber (n : jsnum)
| JString (s : string).

Definition jsval_truthy (v : jsval) : bool :=
  match v with
  | JUndefined | JNull => false
  | JBool b => b
  | JNumber n => num_truthy n
  | JString s => negb (String.eqb s "")
  end.

(** The runtime builtins the code calls. *)
Class JSRuntime := {
  js_parseFloat : string -> jsnum;
  js_numToString : jsnum -> string;
  js_toLowerCase : string -> string;
  js_stringToNumber : string -> jsnum;
  js_cos : Q -> Q;
  js_sin : Q -> Q;
  js_PI : Q
}.

(* ------------------------------------------------------------------ *)
(** ** String primitives *)

Definition chr (n : nat) : ascii := ascii_of_nat n.

(** WhiteSpace and LineTerminator code points representable as bytes:
    tab, LF, VT, FF, CR and space. *)
Definition is_ws (c : ascii) : bool :=
  let n := nat_of_ascii c in
  (Nat.eqb n 9 || Nat.eqb n 10 || Nat.eqb n 11 || Nat.eqb n 12
   || Nat.eqb n 13 || Nat.eqb n 32)%bool.

(** The regular-expression [.]: anything but a line terminator. *)
Definition is_dot (c : ascii) : bool :=
  let n := nat_of_ascii c in negb (Nat.eqb n 10 || Nat.eqb n 13)%bool.

Fixpoint trim_start (s : string) : string :=
  match s with
  | EmptyString => EmptyString
  | String c r => if is_ws c then trim_start r else s
  end.

Fixpoint str_rev (s acc : string) : string :=
  match s with
  | EmptyString => acc
  | String c r => str_rev r (String c acc)
  end.

(** [String.prototype.trim]. *)
Definition trim (s : string) : string :=
  str_rev (trim_start (str_rev (trim_start s) EmptyString)) EmptyString.

Fixpoint starts_with (p s : string) : bool :=
  match p, s with
  | EmptyString, _ => true
  | String a p', String b s' => Ascii.eqb a b && starts_with p' s'
  | String _ _, EmptyString => false
  end.

(** [s.includes(p)]. *)
Fixpoint includes (s p : string) : bool :=
  starts_with p s ||
  match s with
  | EmptyString => false
  | String _ r => includes r p
  end.

Fixpoint sdrop (n : nat) (s : string) : string :=
  match n, s with
  | 0, _ => s
  | S n', String _ r => sdrop n' r
  | S _, EmptyString => EmptyString
  end.

Fixpoint stake (n : nat) (s : string) : string :=
  match n, s with
  | 0, _ => EmptyString
  | S n', String c r => String c (stake n' r)
  | S _, EmptyString => EmptyString
  end.

(** [s.split(c)] for a one-character separator. *)
Fixpoint split_char_aux (c : ascii) (s cur : string) : list string :=
  match s with
  | EmptyString => [str_rev cur EmptyString]
  | String d r =>
      if Ascii.eqb c d then str_rev cur EmptyString :: split_char_aux c r EmptyString
      else split_char_aux c r (String d cur)
  end.

Definition split_char (c : ascii) (s : string) : list string :=
  split_char_aux c s EmptyString.

(** [id.replace(/\\"/g, '"')]: every backslash followed by a quote
    becomes a quote. *)
Fixpoint unescape_quotes (s : string) : string :=
  match s with
  | String a ((String b r) as t) =>
      if Ascii.eqb a (chr 92) && Ascii.eqb b (chr 34)
      then String b (unescape_quotes r)
      else String a (unescape_quotes t)
  | _ => s
  end.

(* ------------------------------------------------------------------ *)
(** ** Regular expressions

    A backtracking matcher for the fragment of JavaScript regular
    expressions the parser uses: literal characters, a character class
    repeated greedily or lazily ([\s*], [.*?], [.+?]), numbered capture
    groups, a greedy optional group [(?:...)?] and sequencing.  The
    matcher is written in continuation-passing style, so a failure of the
    rest of the pattern backtracks into the alternatives of an earlier
    quantifier, in the order the ECMAScript semantics tries them. *)

Module Regex.

Inductive regex :=
| REps
| RLit (c : ascii)
| RRep (greedy : bool) (at_least : nat) (cls : ascii -> bool)
| RGroup (n : nat) (r : regex)
| ROpt (r : regex)
| RSeq (r1 r2 : regex).

(** Captured substrings, by group number; [None] is [undefined]. *)
Definition caps := nat -> option string.

Definition no_caps : caps := fun _ => None.

Definition set_cap (n : nat) (s : string) (c : caps) : caps :=
  fun m => if Nat.eqb m n then Some s else c m.

(** Length of the longest prefix of characters in the class. *)
Fixpoint run_len (p : ascii -> bool) (s : string) : nat :=
  match s with
  | String c r => if p c then S (run_len p r) else 0
  | EmptyString => 0
  end.

Fixpoint first_some {A} (f : nat -> option A) (l : list nat) : option A :=
  match l with
  | [] => None
  | j :: l' => match f j with Some x => Some x | None => first_some f l' end
  end.

Fixpoint m (r : regex) (s : string) (c : caps)
         (k : string -> caps -> option caps) {struct r} : option caps :=
  match r with
  | REps => k s c
  | RLit a =>
      match s with
      | String b s' => if Ascii.eqb a b then k s' c else None
      | EmptyString => None
      end
  | RRep g n p =>
      let counts := seq n (S (run_len p s) - n) in
      first_some (fun j => k (sdrop j s) c) (if g then rev counts else counts)
  | RGroup i r1 =>
      m r1 s c (fun s' c' =>
        k s' (set_cap i (stake (String.length s - String.length s') s) c'))
  | ROpt r1 =>
      match m r1 s c k with
      | Some x => Some x
      | None => k s c
      end
  | RSeq r1 r2 => m r1 s c (fun s' c' => m r2 s' c' k)
  end.

(** [str.match(re)] without the [g] flag: the captures of the leftmost
    match, or [None] ([null]). *)
Fixpoint exec (r : regex) (s : string) : option caps :=
  match m r s no_caps (fun _ c => Some c) with
  | Some c => Some c
  | None =>
      match s with
      | String _ s' => exec r s'
      | EmptyString => None
      end
  end.

Fixpoint lits (s : string) : list regex :=
  match s with
  | EmptyString => []
  | String c s' => RLit c :: lits s'
  end.

Definition seqs (l : list regex) : regex := fold_right RSeq REps l.

Definition ws_star := RRep true 0 is_ws.
Definition QUOTE := RLit (chr 34).

(** [/node\s*\[(.*?)\];/] *)
Definition NODE_ATTR_REGEX : regex :=
  seqs (lits "node" ++ [ws_star; RLit "["; RGroup 1 (RRep false 0 is_dot)]
        ++ lits "];").

(** [/"(.+?)"\s*->\s*"(.+?)"\s*(?:\[(.*?)\])?;/] *)
Definition EDGE_REGEX : regex :=
  seqs ([QUOTE; RGroup 1 (RRep false 1 is_dot); QUOTE; ws_star] ++ lits "->" ++
        [ws_star; QUOTE; RGroup 2 (RRep false 1 is_dot); QUOTE; ws_star;
         ROpt (seqs [RLit "["; RGroup 3 (RRep false 0 is_dot); RLit "]"]);
         RLit ";"]).

(** [/"(.+?)"\s*(?:\[(.*?)\])?;/] *)
Definition NODE_DEF_REGEX : regex :=
  seqs [QUOTE; RGroup 1 (RRep false 1 is_dot); QUOTE; ws_star;
        ROpt (seqs [RLit "["; RGroup 2 (RRep false 0 is_dot); RLit "]"]);
        RLit ";"].

End Regex.

(* ------------------------------------------------------------------ *)
(** ** The graph-description parser (src/unnamed/part_000) *)

(** A node record [{ id, label, ...attributes }] is an object. *)
Abbreviation node := obj.

(** [Map<string, NodeData>]: an association list in insertion order. *)
Abbreviation node_map := (list (string * node)).

Section Parser.
Context `{JS : JSRuntime}.

Fixpoint count_quotes (s : string) : nat :=
  match s with
  | EmptyString => 0
  | String c r => (if Ascii.eqb c (chr 34) then 1 else 0) + count_quotes r
  end.

(** [attrString.split(ATTR_SPLIT_REGEX)] with
    [ATTR_SPLIT_REGEX = /,\s*(?=(?:[^Q]*Q[^Q]*Q)*[^Q]*$)/], Q standing
    for the double-quote character.  The separator matches at a comma
    when the rest of the string holds an even number of quotes (the
    lookahead; the whitespace consumed by [\s*] holds no quote, so the
    parity is the one after the comma); [\s*] is greedy, so the
    whitespace after the comma belongs to no piece.  [skipping] is set
    while that whitespace is being consumed. *)
Fixpoint attr_split_aux (s cur : string) (skipping : bool) : list string :=
  match s with
  | EmptyString => [str_rev cur EmptyString]
  | String c r =>
      if skipping && is_ws c then attr_split_aux r cur true
      else if Ascii.eqb c "," && Nat.even (count_quotes r)
      then str_rev cur EmptyString :: attr_split_aux r EmptyString true
      else attr_split_aux r (String c cur) false
  end.

Definition attr_split (s : string) : list string := attr_split_aux s EmptyString false.

(** [value.replace(R, '$1')] where R matches a quote, any characters but
    line terminators, and a quote, anchored at both ends. *)
Definition strip_quotes (v : string) : string :=
  let n := String.length v in
  let mid := stake (n - 2) (sdrop 1 v) in
  if (2 <=? n)%nat && starts_with (String (chr 34) EmptyString) v
     && starts_with (String (chr 34) EmptyString) (sdrop (n - 1) v)
     && forallb is_dot (list_ascii_of_string mid)
  then mid else v.

(** The value stored for a cleaned attribute value: a number when
    [!isNaN(numValue) && String(numValue) === cleanValue]. *)
Definition attr_value (cleanValue : string) : val :=
  let numValue := js_parseFloat cleanValue in
  if negb (isNaN numValue) && String.eqb (js_numToString numValue) cleanValue
  then VNum numValue else VStr cleanValue.

(** The body of [parts.forEach]: [const [key, value] =
    part.split('=').map((s) => s.trim()); if (key && value) ...]. *)
Definition pa_step (attrs : obj) (part : string) : obj :=
  match map trim (split_char "=" part) with
  | key :: value :: _ =>
      if negb (String.eqb key "") && negb (String.eqb value "")
      then obj_set key (attr_value (strip_quotes value)) attrs
      else attrs
  | _ => attrs
  end.

Definition parseAttributes (attrString : string) : obj :=
  if String.eqb attrString "" then ∅
  else fold_left pa_step (attr_split attrString) ∅.

(** [String(v)] for an attribute value. *)
Definition val_to_string (v : val) : string :=
  match v with VStr s => s | VNum n => js_numToString n end.

Record link := mk_link {
  link_source : string;
  link_target : string;
  link_label : string
}.

Fixpoint map_has (k : string) (mp : node_map) : bool :=
  match mp with
  | [] => false
  | (k', _) :: mp' => String.eqb k k' || map_has k mp'
  end.

(** [Map.prototype.set]: replaces the value in place, or appends. *)
Fixpoint map_set (k : string) (v : node) (mp : node_map) : node_map :=
  match mp with
  | [] => [(k, v)]
  | (k', v') :: mp' =>
      if String.eqb k k' then (k, v) :: mp' else (k', v') :: map_set k v mp'
  end.

(** [Map.prototype.get] *)
Fixpoint map_get (k : string) (mp : node_map) : option node :=
  match mp with
  | [] => None
  | (k', v) :: mp' => if String.eqb k k' then Some v else map_get k mp'
  end.

Record pstate := mk_pstate {
  ps_nodes : node_map;
  ps_links : list link;
  ps_style : obj
}.

Definition default_style : obj :=
  list_to_map [("fontname", VStr "Arial"); ("shape", VStr "ellipse");
               ("style", VStr "filled"); ("color", VStr "gray70");
               ("fillcolor", VStr "white"); ("fontsize", VNum (JFin 60));
               ("width", VNum (JFin 1)); ("height", VNum (JFin (7 # 10)))].

Definition init_pstate : pstate := mk_pstate [] [] default_style.

(** [{ id: i, label: l }] *)
Definition node_base (i l : string) : obj :=
  <["id" := VStr i]> (<["label" := VStr l]> ∅).

(** [!cleanLine || cleanLine.startsWith('//') ||
    cleanLine.startsWith('digraph') || cleanLine === '}'] *)
Definition skipped (cleanLine : string) : bool :=
  String.eqb cleanLine "" || starts_with "//" cleanLine
  || starts_with "digraph" cleanLine || String.eqb cleanLine "}".

(** The body of [lines.forEach]. *)
Definition process_line (st : pstate) (line : string) : pstate :=
  let cleanLine := trim line in
  if skipped cleanLine then st else
  match Regex.exec Regex.NODE_ATTR_REGEX cleanLine with
  | Some nodeAttrMatch =>
      let newAttrs := parseAttributes (default "" (nodeAttrMatch 1)) in
      mk_pstate (ps_nodes st) (ps_links st) (obj_spread (ps_style st) newAttrs)
  | None =>
  match Regex.exec Regex.EDGE_REGEX cleanLine with
  | Some edgeMatch =>
      let source := default "" (edgeMatch 1) in
      let target := default "" (edgeMatch 2) in
      let attrs := match edgeMatch 3 with
                   | Some a => if String.eqb a "" then ∅ else parseAttributes a
                   | None => ∅
                   end in
      let nodes1 := if map_has source (ps_nodes st) then ps_nodes st
                    else map_set source (obj_spread (node_base source source) (ps_style st))
                           (ps_nodes st) in
      let nodes2 := if map_has target nodes1 then nodes1
                    else map_set target (obj_spread (node_base target target) (ps_style st))
                           nodes1 in
      let label := match attrs !! "label" with
                   | Some v => val_to_string v
                   | None => ""
                   end in
      mk_pstate nodes2 (ps_links st ++ [mk_link source target label]) (ps_style st)
  | None =>
  match Regex.exec Regex.NODE_DEF_REGEX cleanLine with
  | Some nodeDefMatch =>
      if includes cleanLine "->" then st else
      let id := default "" (nodeDefMatch 1) in
      let localAttrs := match nodeDefMatch 2 with
                        | Some a => if String.eqb a "" then ∅ else parseAttributes a
                        | None => ∅
                        end in
      mk_pstate
        (map_set id (obj_spread (obj_spread (node_base id (unescape_quotes id)) (ps_style st))
                       localAttrs) (ps_nodes st))
        (ps_links st) (ps_style st)
  | None => st
  end end end.

Record graph := mk_graph { g_nodes : list node; g_links : list link }.

Definition run_lines (st : pstate) (lines : list string) : pstate :=
  fold_left process_line lines st.

(** [parseDotData], with the text [DOT_DATA] (imported from a module
    absent from the sources) as its argument. *)
Definition parseDotData (text : string) : graph :=
  let st := run_lines init_pstate (split_char (chr 10) text) in
  mk_graph (map snd (ps_nodes st)) (ps_links st).

End Parser.

(* ------------------------------------------------------------------ *)
(** ** Edge classification and node size (src/unnamed/part_000) *)

Section Classifier.
Context `{JS : JSRuntime}.

(** [String(v)] for a value of type [any]. *)
Definition jsval_to_string (v : jsval) : string :=
  match v with
  | JUndefined => "undefined"
  | JNull => "null"
  | JBool true => "true"
  | JBool false => "false"
  | JNumber n => js_numToString n
  | JString s => s
  end.

Definition kw_interaction : list string :=
  ["взаимодействие"; "нажатие"; "использование"; "вращение"; "тяга"; "толчок";
   "управление"; "действие"; "включение"; "запускание"; "дуть"; "надавливание";
   "надувание"; "сидение"; "вставание"; "пробование"; "общение"].

Definition kw_perception : list string :=
  ["наблюдение"; "слышание"; "ощущение"; "видение"; "внимание"; "восприятие";
   "чувствование"; "рассматривание"].

Definition kw_structure : list string :=
  ["часть"; "наличие"; "составленность"; "расположение"; "принадлежность";
   "содержание"; "обладание"; "вхождение"; "близость"].

Definition kw_attribute : list string :=
  ["характеристика"; "тождество"; "пример"; "причина"; "результат"; "свойство";
   "функция"; "значение"; "условие"; "возможность"; "способность"; "рост";
   "отсутствие"; "потеря"].

Definition kw_creation : list string :=
  ["создание"; "возникновение"; "образование"; "формирование"; "появление";
   "разработка"; "открытие"; "рождение"; "превращение"].

(** [[...].some(k => l.includes(k))] *)
Definition some_included (l : string) (kws : list string) : bool :=
  existsb (fun k => includes l k) kws.

Definition getEdgeColor (label : jsval) : string :=
  if negb (jsval_truthy label) then "#64748b" else
  let l := js_toLowerCase (jsval_to_string label) in
  if some_included l kw_interaction then "#3b82f6" else
  if some_included l kw_perception then "#a855f7" else
  if some_included l kw_structure then "#f97316" else
  if some_included l kw_attribute then "#10b981" else
  if some_included l kw_creation then "#ef4444" else
  "#64748b".

(** [node.width || 1], then [baseWidth * 10 + 5] (a string width is
    converted by ToNumber in the multiplication). *)
Definition getSizeForNode (n : node) : jsnum :=
  let baseWidth :=
    match n !! "width" with
    | Some v => if val_truthy v then v else VNum (JFin 1)
    | None => VNum (JFin 1)
    end in
  let w := match baseWidth with VNum x => x | VStr s => js_stringToNumber s end in
  num_add (num_scale w 10) (JFin 5).

End Classifier.

(* ------------------------------------------------------------------ *)
(** ** The force simulation and the layout configurator
    (GraphCanvas in src/components/Sidebar.tsx)

    The d3 simulation is an external solver; what the component relies on
    is its registry of named forces ([simulation.force(name, f)] binds or,
    with [null], unbinds a name), its [alpha] and its timer.  Force objects
    live in a heap: the component keeps a reference to the link force and
    mutates it ([linkForce.distance(100)]) after it has been installed, and
    the simulation sees the change. *)

Inductive force :=
| FLink (links : list link) (distance : option Q) (strength : option Q)
| FCollide (radius : node -> jsnum) (iterations : option nat)
| FManyBody (strength : Q)
| FCenter (x y : Q) (strength : option Q)
| FRadial (radius : node -> Q) (x y : Q) (strength : Q)
| FX (target : node -> nat -> jsnum) (strength : Q)
| FY (target : node -> nat -> jsnum) (strength : Q).

(** [linkForce.distance(d)] and [linkForce.strength(k)]. *)
Definition link_distance (d : Q) (f : force) : force :=
  match f with FLink ls _ k => FLink ls (Some d) k | _ => f end.

Definition link_strength (k : Q) (f : force) : force :=
  match f with FLink ls d _ => FLink ls d (Some k) | _ => f end.

Record sim := mk_sim {
  sim_nodes : list node;              (* the node objects, with their x, y *)
  sim_forces : gmap string nat;       (* force name -> heap location *)
  sim_heap : list force;
  sim_alpha : Q;
  sim_running : bool
}.

(** Statements on a simulation: a state monad. *)
Definition SimM (A : Type) : Type := sim -> A * sim.

Global Instance SimM_ret : MRet SimM := fun A a s => (a, s).
Global Instance SimM_bind : MBind SimM :=
  fun A B f m s => let '(a, s') := m s in f a s'.

Definition alloc_force (f : force) : SimM nat := fun s =>
  (length (sim_heap s),
   mk_sim (sim_nodes s) (sim_forces s) (app (sim_heap s) [f]) (sim_alpha s) (sim_running s)).

(** [simulation.force(name, f)] and [simulation.force(name, null)]. *)
Definition sim_force (name : string) (f : option nat) : SimM unit := fun s =>
  (tt, mk_sim (sim_nodes s)
         (match f with Some l => <[name := l]> (sim_forces s)
                     | None => delete name (sim_forces s) end)
         (sim_heap s) (sim_alpha s) (sim_running s)).

(** A method call on a force object the component holds. *)
Definition modify_force (l : nat) (g : force -> force) : SimM unit := fun s =>
  (tt, mk_sim (sim_nodes s) (sim_forces s)
         (alter g l (sim_heap s)) (sim_alpha s) (sim_running s)).

Definition set_alpha (a : Q) : SimM unit := fun s =>
  (tt, mk_sim (sim_nodes s) (sim_forces s) (sim_heap s) a (sim_running s)).

Definition restart : SimM unit := fun s =>
  (tt, mk_sim (sim_nodes s) (sim_forces s) (sim_heap s) (sim_alpha s) true).

(** The force bound to a name. *)
Definition force_at (s : sim) (name : string) : option force :=
  sim_forces s !! name ≫= fun l => sim_heap s !! l.

Inductive layout := LForce | LRadial | LCircuit | LSubset | LGrid.

Section Layout.
Context `{JS : JSRuntime}.
Local Open Scope Q_scope.

Definition radial_radius (d : node) : Q :=
  let size := getSizeForNode d in
  if num_gt size 40 then 0
  else if num_gt size 30 then 250
  else if num_gt size 20 then 500
  else 800.

(** [Math.ceil(Math.sqrt(q))] for [q >= 0]. *)
Definition ceil_sqrt (q : Q) : Z :=
  let r := Z.sqrt (Qfloor q) in
  if Qeq_bool (inject_Z (r * r)) q then r else (r + 1)%Z.

Definition grid_scale : Q := 120.

(** [Math.ceil(Math.sqrt(n * 1.5))] *)
Definition grid_cols (n : nat) : Z := ceil_sqrt (inject_Z (Z.of_nat n) * (3 # 2)).

(** The targets of the grid layout's x and y forces for the node of index
    [i]; with no column ([n = 0]) they are NaN. *)
Definition grid_x (w : Q) (cols : Z) (i : nat) : jsnum :=
  if Z.eqb cols 0 then JNaN else
  let col := (Z.of_nat i mod cols)%Z in
  JFin (w / 2 - (inject_Z cols * grid_scale) / 2 + inject_Z col * grid_scale).

Definition grid_y (h : Q) (n : nat) (cols : Z) (i : nat) : jsnum :=
  if Z.eqb cols 0 then JNaN else
  let row := (Z.of_nat i / cols)%Z in
  JFin (h / 2 - (inject_Z (Z.of_nat n) / inject_Z cols * grid_scale) / 2
        + inject_Z row * grid_scale).

(** [d.fillcolor || '#ccc'] *)
Definition fill_or_default (d : node) : val :=
  match d !! "fillcolor" with
  | Some v => if val_truthy v then v else VStr "#ccc"
  | None => VStr "#ccc"
  end.

(** SameValueZero, the equality of [Set]. *)
Definition same_value_zero (a b : val) : bool :=
  match a, b with
  | VStr x, VStr y => String.eqb x y
  | VNum (JFin x), VNum (JFin y) => Qeq_bool x y
  | VNum (JInf x), VNum (JInf y) => Bool.eqb x y
  | VNum JNaN, VNum JNaN => true
  | _, _ => false
  end.

(** [Array.from(new Set(xs))]: first occurrences, in order. *)
Definition set_from (xs : list val) : list val :=
  fold_left (fun acc v => if existsb (same_value_zero v) acc then acc else app acc [v]) xs [].

(** The property key of a value used as an object key. *)
Definition prop_key (v : val) : string := val_to_string v.

Definition group_centers (w h : Q) (groups : list val) : gmap string (Q * Q) :=
  let groupCount := length groups in
  let radius := Qmin w h * (35 # 100) in
  fst (fold_left (fun '(acc, i) color =>
         let angle := inject_Z (Z.of_nat i) / inject_Z (Z.of_nat groupCount) * 2 * js_PI in
         (<[prop_key color := (w / 2 + radius * js_cos angle,
                               h / 2 + radius * js_sin angle)]> acc, S i))
       groups (∅, 0%nat)).

(** [groupCenters[color]?.x || w/2] and the same for y. *)
Definition subset_x (w : Q) (centers : gmap string (Q * Q)) (d : node) : jsnum :=
  match centers !! prop_key (fill_or_default d) with
  | Some (x, _) => if Qeq_bool x 0 then JFin (w / 2) else JFin x
  | None => JFin (w / 2)
  end.

Definition subset_y (h : Q) (centers : gmap string (Q * Q)) (d : node) : jsnum :=
  match centers !! prop_key (fill_or_default d) with
  | Some (_, y) => if Qeq_bool y 0 then JFin (h / 2) else JFin y
  | None => JFin (h / 2)
  end.

Definition install (name : string) (f : force) : SimM unit :=
  l ← alloc_force f; sim_force name (Some l).

Definition applyLayoutForces (mode : layout) (w h : Q) (graphData : graph) : SimM unit :=
  linkForce ← alloc_force (FLink (g_links graphData) None None);
  sim_force "link" (Some linkForce);;
  install "collide" (FCollide (fun d => num_add (getSizeForNode d) (JFin 5)) (Some 2%nat));;
  match mode with
  | LForce =>
      modify_force linkForce (link_distance 100);;
      install "charge" (FManyBody (-300));;
      install "center" (FCenter (w / 2) (h / 2) None)
  | LRadial =>
      install "charge" (FManyBody (-100));;
      modify_force linkForce (link_strength (1 # 10));;
      install "radial" (FRadial radial_radius (w / 2) (h / 2) (8 # 10))
  | LCircuit =>
      install "charge" (FManyBody (-1200));;
      install "center" (FCenter (w / 2) (h / 2) (Some (5 # 100)));;
      modify_force linkForce (link_distance 150);;
      modify_force linkForce (link_strength (8 # 10));;
      install "collide" (FCollide (fun d => num_scale (getSizeForNode d) (3 # 2)) None)
  | LSubset =>
      install "charge" (FManyBody (-100));;
      modify_force linkForce (link_strength (5 # 100));;
      let groups := set_from (map fill_or_default (g_nodes graphData)) in
      let centers := group_centers w h groups in
      install "x" (FX (fun d _ => subset_x w centers d) (1 # 2));;
      install "y" (FY (fun d _ => subset_y h centers d) (1 # 2))
  | LGrid =>
      let n := length (g_nodes graphData) in
      let cols := grid_cols n in
      install "charge" (FManyBody (-50));;
      modify_force linkForce (link_strength (1 # 100));;
      install "x" (FX (fun _ i => grid_x w cols i) 1);;
      install "y" (FY (fun _ i => grid_y h n cols i) 1)
  end.

Definition force_names : list string :=
  ["link"; "charge"; "center"; "collide"; "radial"; "x"; "y"].

(** The body of the layout-change effect, once [simulationRef.current]
    and [containerRef.current] are set: remove the old forces, apply the
    new ones, re-heat. *)
Definition relayout (mode : layout) (w h : Q) (data : graph) : SimM unit :=
  sim_force "link" None;; sim_force "charge" None;; sim_force "center" None;;
  sim_force "collide" None;; sim_force "radial" None;; sim_force "x" None;;
  sim_force "y" None;;
  applyLayoutForces mode w h data;;
  set_alpha 1;; restart.

(** The effect with its guard: [container] is the client size of the
    container element when it is mounted. *)
Definition layout_effect (simRef : option sim) (container : option (Q * Q))
           (mode : layout) (data : graph) : option sim :=
  match simRef, container with
  | Some s, Some (w, h) => Some (snd (relayout mode w h data s))
  | _, _ => simRef
  end.

(** [d3.forceSimulation(data.nodes)] (alpha 1, timer started) followed by
    [applyLayoutForces] in the initialisation effect. *)
Definition new_simulation (nodes : list node) : sim := mk_sim nodes ∅ [] 1 true.

Definition init_simulation (mode : layout) (w h : Q) (data : graph) : sim :=
  snd (applyLayoutForces mode w h data (new_simulation (g_nodes data))).

End Layout.

(* ------------------------------------------------------------------ *)
(** ** A concrete runtime

    An implementation of [JSRuntime] used to evaluate the code on concrete
    inputs: parseFloat reads the longest decimal prefix exactly (sign,
    digits, fraction, exponent, or Infinity) after leading whitespace;
    Number::toString prints integers and terminating decimals in plain
    decimal notation; toLowerCase maps ASCII and basic Cyrillic capitals
    (in UTF-8) to small letters. *)

Module ConcreteRuntime.

Definition digit_of (c : ascii) : option Z :=
  let n := nat_of_ascii c in
  if (48 <=? n)%nat && (n <=? 57)%nat then Some (Z.of_nat (n - 48)) else None.

(** Reads digits: (value, count, rest). *)
Fixpoint read_digits (s : string) (acc : Z) (cnt : nat) : Z * nat * string :=
  match s with
  | String c r =>
      match digit_of c with
      | Some d => read_digits r (10 * acc + d) (S cnt)
      | None => (acc, cnt, s)
      end
  | EmptyString => (acc, cnt, s)
  end.

Definition read_sign (s : string) : Z * string :=
  match s with
  | String c r =>
      if Ascii.eqb c "-" then (-1, r)%Z
      else if Ascii.eqb c "+" then (1, r)%Z else (1, s)%Z
  | EmptyString => (1%Z, s)
  end.

(** An optional exponent: (exponent, rest). *)
Definition read_exponent (s : string) : Z * string :=
  match s with
  | String c r =>
      if Ascii.eqb c "e" || Ascii.eqb c "E" then
        let '(sg, r1) := read_sign r in
        let '(e, ne, r2) := read_digits r1 0 0 in
        if (ne =? 0)%nat then (0%Z, s) else ((sg * e)%Z, r2)
      else (0%Z, s)
  | EmptyString => (0%Z, s)
  end.

(** The longest decimal-literal prefix: its value and the rest. *)
Definition read_number (s : string) : jsnum * string :=
  let '(sg, r1) := read_sign s in
  let '(ip, ni, r2) := read_digits r1 0 0 in
  let '(fp, nf, r3) :=
    match r2 with
    | String c r => if Ascii.eqb c "." then read_digits r 0 0 else (0%Z, 0, r2)
    | EmptyString => (0%Z, 0, r2)
    end in
  if ((ni + nf) =? 0)%nat then
    (if starts_with "Infinity" r1 then (JInf (Z.eqb sg 1), sdrop 8 r1) else (JNaN, s))
  else
    let '(e, r4) := read_exponent r3 in
    let mant := (sg * (ip * 10 ^ Z.of_nat nf + fp))%Z in
    (JFin (Qred (Qmake mant (Pos.of_nat (Nat.pow 10 nf)) * Qpower 10 e)), r4).

Definition parseFloat (s : string) : jsnum := fst (read_number (trim_start s)).

Fixpoint digits_to_string (fuel : nat) (n : Z) (acc : string) : string :=
  match fuel with
  | 0 => acc
  | S f =>
      let d := String (ascii_of_nat (48 + Z.to_nat (n mod 10))) acc in
      if (n <? 10)%Z then d else digits_to_string f (n / 10)%Z d
  end.

Definition nat_to_string (n : Z) : string := digits_to_string 400 n EmptyString.

Definition Z_to_string (z : Z) : string :=
  if (z <? 0)%Z then String "-" (nat_to_string (- z)) else nat_to_string z.

(** The decimal digits of [n / 10^k], [n >= 0]. *)
Definition scaled_to_string (n : Z) (k : nat) : string :=
  let p := (10 ^ Z.of_nat k)%Z in
  let frac := nat_to_string (n mod p + p)%Z in
  String.append (nat_to_string (n / p)%Z) (String "." (sdrop 1 frac)).

Fixpoint find_scale (fuel : nat) (k : nat) (den : Z) : option nat :=
  match fuel with
  | 0 => None
  | S f => if (10 ^ Z.of_nat k mod den =? 0)%Z then Some k else find_scale f (S k) den
  end.

Definition numToString (n : jsnum) : string :=
  match n with
  | JNaN => "NaN"
  | JInf true => "Infinity"
  | JInf false => "-Infinity"
  | JFin q =>
      let q' := Qred q in
      let num := Qnum q' in
      let den := Zpos (Qden q') in
      if (den =? 1)%Z then Z_to_string num else
      let k := default 20 (find_scale 64 0 den) in
      let scaled := (Z.abs num * (10 ^ Z.of_nat k / den))%Z in
      let body := scaled_to_string scaled k in
      if (num <? 0)%Z then String "-" body else body
  end.

Fixpoint toLowerCase (s : string) : string :=
  match s with
  | String a ((String b r) as t) =>
      let na := nat_of_ascii a in
      let nb := nat_of_ascii b in
      if (na =? 208)%nat && (144 <=? nb)%nat && (nb <=? 159)%nat
      then String a (String (chr (nb + 32)) (toLowerCase r))
      else if (na =? 208)%nat && (160 <=? nb)%nat && (nb <=? 175)%nat
      then String (chr 209) (String (chr (nb - 32)) (toLowerCase r))
      else if (na =? 208)%nat && (128 <=? nb)%nat && (nb <=? 143)%nat
      then String (chr 209) (String (chr (nb + 16)) (toLowerCase r))
      else if (65 <=? na)%nat && (na <=? 90)%nat
      then String (chr (na + 32)) (toLowerCase t)
      else String a (toLowerCase t)
  | String a EmptyString =>
      let na := nat_of_ascii a in
      if (65 <=? na)%nat && (na <=? 90)%nat then String (chr (na + 32)) EmptyString else s
  | EmptyString => s
  end.

(** StringToNumber: the whole trimmed string must be a numeral; the empty
    string is 0. *)
Definition stringToNumber (s : string) : jsnum :=
  let t := trim s in
  if String.eqb t "" then JFin 0 else
  let '(n, rest) := read_number t in
  if String.eqb rest "" then n else JNaN.

Definition runtime : JSRuntime := {|
  js_parseFloat := parseFloat;
  js_numToString := numToString;
  js_toLowerCase := toLowerCase;
  js_stringToNumber := stringToNumber;
  js_cos := fun _ => 0%Q;
  js_sin := fun _ => 0%Q;
  js_PI := 355 # 113
|}.

End ConcreteRuntime.

(* ------------------------------------------------------------------ *)
(** ** Auxiliary definitions for the statements *)

(** The simulation's registry points into its heap. *)
Definition heap_ok (s : sim) : Prop :=
  map_Forall (fun _ l => (l < length (sim_heap s))%nat) (sim_forces s).

(** The registry after the seven [simulation.force(name, null)] calls of
    the layout-change effect. *)
Definition clear_forces (F : gmap string nat) : gmap string nat :=
  delete "y" (delete "x" (delete "radial" (delete "collide"
    (delete "center" (delete "charge" (delete "link" F)))))).

(** The names [applyLayoutForces] binds in each mode. *)
Definition mode_names (mode : layout) : list string :=
  ["link"; "collide"] ++ match mode with
  | LForce | LCircuit => ["charge"; "center"]
  | LRadial => ["charge"; "radial"]
  | LSubset | LGrid => ["charge"; "x"; "y"]
  end.

(** The identifier a line declares through the third branch of the line
    loop (an explicit node definition), if it does. *)
Definition declared_id (line : string) : option string :=
  let cleanLine := trim line in
  if skipped cleanLine then None else
  match Regex.exec Regex.NODE_ATTR_REGEX cleanLine with
  | Some _ => None
  | None =>
  match Regex.exec Regex.EDGE_REGEX cleanLine with
  | Some _ => None
  | None =>
  match Regex.exec Regex.NODE_DEF_REGEX cleanLine with
  | Some nodeDefMatch =>
      if includes cleanLine "->" then None else Some (default "" (nodeDefMatch 1))
  | None => None
  end end end.

Section OwnAttributes.
Context `{JS : JSRuntime}.

(** The attribute object a line spreads last into the node it declares:
    the block of a node definition ([localAttrs]); any other line gives
    none of its own to a node. *)
Definition own_attrs (line : string) : obj :=
  let cleanLine := trim line in
  if skipped cleanLine then ∅ else
  match Regex.exec Regex.NODE_ATTR_REGEX cleanLine with
  | Some _ => ∅
  | None =>
  match Regex.exec Regex.EDGE_REGEX cleanLine with
  | Some _ => ∅
  | None =>
  match Regex.exec Regex.NODE_DEF_REGEX cleanLine with
  | Some nodeDefMatch =>
      if includes cleanLine "->" then ∅ else
      match nodeDefMatch 2 with
      | Some a => if String.eqb a "" then ∅ else parseAttributes a
      | None => ∅
      end
  | None => ∅
  end end end.

End OwnAttributes.

(** The id field of a node built for key [k] from the own attributes
    [own] and the active style [style]: the own [id] attribute, else the
    style's, else [k]. *)
Definition expected_id (own style : obj) (k : string) : option val :=
  match own !! "id" with
  | Some v => Some v
  | None => match style !! "id" with Some v => Some v | None => Some (VStr k) end
  end.

(** The edge classification as a priority table: the categories in the
    order interaction, perception, structure, attribute, creation, each
    with its keywords and color, and the color of everything else. *)
Definition edge_categories : list (list string * string) :=
  [(kw_interaction, "#3b82f6"); (kw_perception, "#a855f7");
   (kw_structure, "#f97316"); (kw_attribute, "#10b981");
   (kw_creation, "#ef4444")].

Definition other_color : string := "#64748b".

(** The color of the first category one of whose keywords is a substring
    of [l]. *)
Fixpoint first_category (l : string) (cats : list (list string * string)) : string :=
  match cats with
  | [] => other_color
  | (kws, color) :: cats' =>
      if existsb (fun k => includes l k) kws then color else first_category l cats'
  end.

Definition edge_colors : list string := map snd edge_categories ++ [other_color].

(** Building DOT text: a quoted identifier and lines joined by newlines. *)
Definition dq (s : string) : string := String (chr 34) (s ++ String (chr 34) EmptyString).

Definition text_of (ls : list string) : string :=
  String.concat (String (chr 10) EmptyString) ls.

Definition c4_text : string :=
  text_of ["node[color=red];"; dq "A" ++ ";"; "node[color=blue];"; dq "B" ++ ";"].

(** The captures of a successful match, or none. *)
Definition caps_of (r : Regex.regex) (s : string) : Regex.caps :=
  match Regex.exec r s with Some m => m | None => Regex.no_caps end.

(** Inputs of the concrete instances below. *)
Definition w_edge_line : string := dq "A" ++ " -> " ++ dq "B" ++ ";".

Definition w_attrs : string := "label=" ++ dq "a, b" ++ ", weight=5".

Definition w_decl_lines : list string :=
  [dq "A" ++ " [color=red];"; dq "A" ++ " -> " ++ dq "B" ++ ";"; dq "A" ++ " [color=blue];"].

Definition w_label_line : string := dq "A" ++ " -> " ++ dq "B" ++ " [label=" ++ dq "5" ++ "];".

Definition w_graph : graph := mk_graph [∅; ∅; ∅] [].

(* ------------------------------------------------------------------ *)
(** ** Auxiliary definitions for the further properties *)

(** The attributes every node of the parser is built with: [id] and
    [label] from the node literal, the others from the default style. *)
Definition style_keys : list string :=
  ["fontname"; "shape"; "style"; "color"; "fillcolor"; "fontsize"; "width"; "height"].

Definition node_required_keys : list string := "id" :: "label" :: style_keys.

Definition has_keys (ks : list string) (o : obj) : Prop :=
  Forall (fun k => is_Some (o !! k)) ks.

(** The parser's state when [lines.forEach] has finished. *)
Definition parse_state `{JSRuntime} (text : string) : pstate :=
  run_lines init_pstate (split_char (chr 10) text).

(** The endpoints of the link an edge line adds, if the line is handled
    as an edge. *)
Definition edge_ends (line : string) : option (string * string) :=
  let cleanLine := trim line in
  if skipped cleanLine then None else
  match Regex.exec Regex.NODE_ATTR_REGEX cleanLine with
  | Some _ => None
  | None =>
  match Regex.exec Regex.EDGE_REGEX cleanLine with
  | Some edgeMatch => Some (default "" (edgeMatch 1), default "" (edgeMatch 2))
  | None => None
  end end.

(** The identifiers a line names as nodes, in the order it sets them. *)
Definition mentions (line : string) : list string :=
  match edge_ends line with
  | Some (s, t) => [s; t]
  | None => match declared_id line with Some k => [k] | None => [] end
  end.

Definition add_new (acc : list string) (k : string) : list string :=
  if existsb (String.eqb k) acc then acc else app acc [k].

(** The distinct elements of a list, in the order of their first
    occurrences. *)
Definition first_occurrences (l : list string) : list string := fold_left add_new l [].

(** The first character of the string is not white space. *)
Definition lead_ok (s : string) : bool :=
  match s with String c _ => negb (is_ws c) | EmptyString => true end.

Definition pinv_keys (st : pstate) : Prop :=
  has_keys style_keys (ps_style st) /\
  Forall (fun p => has_keys node_required_keys (snd p)) (ps_nodes st).

Definition pinv_links (st : pstate) : Prop :=
  Forall (fun l => map_has (link_source l) (ps_nodes st) = true /\
                   map_has (link_target l) (ps_nodes st) = true) (ps_links st).

Definition ends (l : link) : string * string := (link_source l, link_target l).

(** Every character of the string satisfies [f]. *)
Definition all_chars (f : ascii -> bool) (s : string) : bool :=
  forallb f (list_ascii_of_string s).

Definition not_char (c : ascii) (d : ascii) : bool := negb (Ascii.eqb c d).

Definition key_ok (k : string) : Prop :=
  k <> "" /\ k <> "__proto__" /\ trim k = k /\ all_chars (not_char "="%char) k = true.

Definition set_step (acc : list val) (v : val) : list val :=
  if existsb (same_value_zero v) acc then acc else app acc [v].

(** An entry [{ color, label }] of a legend. *)
Record legend_item := mk_legend { li_color : string; li_label : string }.

Definition EDGE_LEGEND : list legend_item :=
  [mk_legend "#3b82f6" "Взаимодействие"; mk_legend "#a855f7" "Восприятие";
   mk_legend "#f97316" "Структура/Наличие"; mk_legend "#10b981" "Характеристика/Логика";
   mk_legend "#ef4444" "Создание/Процесс"; mk_legend "#64748b" "Другое"].

(** [s.replace(c, '')] with a one-character string pattern: the first
    occurrence is removed. *)
Fixpoint remove_first (c : ascii) (s : string) : string :=
  match s with
  | EmptyString => EmptyString
  | String d r => if Ascii.eqb c d then r else String d (remove_first c r)
  end.

(** The id of the arrowhead marker defined for a legend color:
    [`arrowhead-${colorId}`] with [colorId = cat.color.replace('#', '')]. *)
Definition marker_id (color : string) : string := "arrowhead-" ++ remove_first "#" color.

(** The [marker-end] attribute of a link line:
    [`url(#arrowhead-${color.replace('#', '')})`]. *)
Definition link_marker_end `{JSRuntime} (label : jsval) : string :=
  let color := getEdgeColor label in
  "url(#arrowhead-" ++ remove_first "#" color ++ ")".

(** [link.source] and [link.target]: an id, or the node object d3's link
    force puts in its place ([string | NodeData]). *)
Inductive endpoint :=
| EId (s : string)
| ENode (d : node).

Record sb_link := mk_sb_link {
  sl_source : endpoint;
  sl_target : endpoint;
  sl_label : string
}.

(** [typeof e === 'object' ? e.id : e]; [None] is undefined. *)
Definition ep_id (e : endpoint) : option val :=
  match e with EId s => Some (VStr s) | ENode d => d !! "id" end.

(** Strict equality [===] on values that may be undefined. *)
Definition strict_eq (a b : option val) : bool :=
  match a, b with
  | None, None => true
  | Some (VStr x), Some (VStr y) => String.eqb x y
  | Some (VNum (JFin x)), Some (VNum (JFin y)) => Qeq_bool x y
  | Some (VNum (JInf x)), Some (VNum (JInf y)) => Bool.eqb x y
  | _, _ => false
  end.

(** SameValueZero on values that may be undefined. *)
Definition svz_opt (a b : option val) : bool :=
  match a, b with
  | None, None => true
  | Some x, Some y => same_value_zero x y
  | _, _ => false
  end.

(** A [Set] as the list of its elements in insertion order. *)
Definition set_add (x : option val) (S : list (option val)) : list (option val) :=
  if existsb (svz_opt x) S then S else app S [x].

Definition set_has (x : option val) (S : list (option val)) : bool :=
  existsb (svz_opt x) S.

(** An entry of the Sidebar's [neighbors]. *)
Record neighbor := mk_neighbor {
  nb_relation : string;
  nb_node : option node;
  nb_direction : string
}.

(** [!selectedNodeId] for a [string | null]. *)
Definition no_selection (sel : option string) : bool :=
  match sel with None => true | Some s => String.eqb s "" end.

(** The Sidebar's [selectedNode]: no node id is null. *)
Definition selectedNode (nodes : list node) (sel : option string) : option node :=
  match sel with
  | None => None
  | Some s => List.find (fun n => strict_eq (n !! "id") (Some (VStr s))) nodes
  end.

(** The Sidebar's [neighbors]. *)
Definition neighbors (nodes : list node) (links : list sb_link) (sel : option string)
  : list neighbor :=
  match sel with
  | None => []
  | Some selectedNodeId =>
    if String.eqb selectedNodeId "" then [] else
    map (fun link =>
           let s := ep_id (sl_source link) in
           let t := ep_id (sl_target link) in
           let isSource := strict_eq s (Some (VStr selectedNodeId)) in
           let neighborId := if isSource then t else s in
           let neighborNode :=
             List.find (fun n => strict_eq (n !! "id") neighborId) nodes in
           mk_neighbor (sl_label link) neighborNode
                       (if isSource then "outgoing" else "incoming"))
      (List.filter (fun link =>
           let s := ep_id (sl_source link) in
           let t := ep_id (sl_target link) in
           strict_eq s (Some (VStr selectedNodeId)) || strict_eq t (Some (VStr selectedNodeId)))
         links)
  end.

(** [n.label.toLowerCase().includes(term)] over the nodes, in order;
    [None] is the TypeError of a label that is not a string. *)
Fixpoint filter_labels `{JSRuntime} (needle : string) (ns : list node) : option (list node) :=
  match ns with
  | [] => Some []
  | n :: r =>
      match n !! "label" with
      | Some (VStr l) =>
          rest ← filter_labels needle r;
          Some (if includes (js_toLowerCase l) needle then n :: rest else rest)
      | _ => None
      end
  end.

(** The Sidebar's [filteredNodes]. *)
Definition filteredNodes `{JSRuntime} (nodes : list node) (searchTerm : string)
  : option (list node) :=
  if String.eqb searchTerm "" then Some [] else
  option_map (firstn 10) (filter_labels (js_toLowerCase searchTerm) nodes).

(** [linkedIds] of the node-selection mode of the highlighting effect. *)
Definition linked_ids (selectedNodeId : string) (links : list sb_link)
  : list (option val) :=
  fold_left (fun linkedIds l =>
      let s := ep_id (sl_source l) in
      let t := ep_id (sl_target l) in
      let linkedIds := if strict_eq s (Some (VStr selectedNodeId)) then set_add t linkedIds
                       else linkedIds in
      if strict_eq t (Some (VStr selectedNodeId)) then set_add s linkedIds else linkedIds)
    links (set_add (Some (VStr selectedNodeId)) []).

(** [relevantNodeIds] of the link-type mode. *)
Definition relevant_ids (highlightedLinkType : string) (links : list sb_link)
  : list (option val) :=
  fold_left (fun acc l =>
      if String.eqb (sl_label l) highlightedLinkType
      then set_add (ep_id (sl_target l)) (set_add (ep_id (sl_source l)) acc)
      else acc)
    links [].

(** The opacity the highlighting effect gives a node. *)
Definition node_opacity (selectedNodeId highlightedLinkType : option string)
           (links : list sb_link) (d : node) : Q :=
  match selectedNodeId with
  | Some sel =>
      if String.eqb sel "" then
        match highlightedLinkType with
        | Some ty => if String.eqb ty "" then 1
                     else if set_has (d !! "id") (relevant_ids ty links) then 1 else 15 # 100
        | None => 1
        end
      else if set_has (d !! "id") (linked_ids sel links) then 1 else 15 # 100
  | None =>
      match highlightedLinkType with
      | Some ty => if String.eqb ty "" then 1
                   else if set_has (d !! "id") (relevant_ids ty links) then 1 else 15 # 100
      | None => 1
      end
  end.

(** d3-zoom's transforms [{k, x, y}]: the zoom factors used here are
    positive. *)
Record ztransform := mk_zt { zk : Q; zx : jsnum; zy : jsnum }.

Definition zoomIdentity : ztransform := mk_zt 1 (JFin 0) (JFin 0).

Definition num_neg (a : jsnum) : jsnum :=
  match a with JFin x => JFin (- x) | JInf s => JInf (negb s) | JNaN => JNaN end.

Definition num_is_zero (a : jsnum) : bool :=
  match a with JFin x => Qeq_bool x 0 | _ => false end.

(** [translate(x, y)]: [x === 0 & y === 0 ? this : new Transform(k, x0 + k x, y0 + k y)]. *)
Definition zt_translate (x y : jsnum) (t : ztransform) : ztransform :=
  if num_is_zero x && num_is_zero y then t
  else mk_zt (zk t) (num_add (zx t) (num_scale x (zk t))) (num_add (zy t) (num_scale y (zk t))).

(** [scale(k)]: [k === 1 ? this : new Transform(k0 k, x, y)]. *)
Definition zt_scale (k : Q) (t : ztransform) : ztransform :=
  if Qeq_bool k 1 then t else mk_zt (zk t * k) (zx t) (zy t).

(** [apply(p)]: [[p0 k + x, p1 k + y]]. *)
Definition zt_apply (t : ztransform) (p : jsnum * jsnum) : jsnum * jsnum :=
  (num_add (num_scale (fst p) (zk t)) (zx t), num_add (num_scale (snd p) (zk t)) (zy t)).

(** The auto-center effect: the transform it animates the zoom to, if it
    does.  [refs] says whether the svg and zoom refs are set; [container]
    is the client size of the container when it is mounted. *)
Definition auto_center (nodes : list node) (selectedNodeId : option string) (refs : bool)
           (container : option (Q * Q)) : option ztransform :=
  match selectedNodeId, container with
  | Some sel, Some (width, height) =>
      if String.eqb sel "" || negb refs then None else
      match List.find (fun n => strict_eq (n !! "id") (Some (VStr sel))) nodes with
      | Some node =>
          match node !! "x", node !! "y" with
          | Some (VNum x), Some (VNum y) =>
              Some (zt_translate (num_neg x) (num_neg y)
                      (zt_scale (13 # 10)
                         (zt_translate (JFin (width / 2)) (JFin (height / 2)) zoomIdentity)))
          | _, _ => None
          end
      | None => None
      end
  | _, _ => None
  end.

Definition linked_step (selectedNodeId : string) (linkedIds : list (option val))
           (l : sb_link) : list (option val) :=
  let s := ep_id (sl_source l) in
  let t := ep_id (sl_target l) in
  let linkedIds := if strict_eq s (Some (VStr selectedNodeId)) then set_add t linkedIds
                   else linkedIds in
  if strict_eq t (Some (VStr selectedNodeId)) then set_add s linkedIds else linkedIds.

Definition relevant_step (ty : string) (acc : list (option val)) (l : sb_link)
  : list (option val) :=
  if String.eqb (sl_label l) ty
  then set_add (ep_id (sl_target l)) (set_add (ep_id (sl_source l)) acc)
  else acc.

Definition label_matches `{JSRuntime} (needle : string) (n : node) : bool :=
  match n !! "label" with Some (VStr l) => includes (js_toLowerCase l) needle | _ => false end.

Definition label_is_string (n : node) : Prop := exists l, n !! "label" = Some (VStr l).

Definition w_node_a : node :=
  <["id" := VStr "A"]> (<["label" := VStr "Alpha"]>
    (<["x" := VNum (JFin 10)]> (<["y" := VNum (JFin 20)]> ∅))).

Definition w_node_b : node := <["id" := VStr "B"]> (<["label" := VStr "Beta"]> ∅).

Definition w_nodes : list node := [w_node_a; w_node_b].

Definition w_sb_links : list sb_link :=
  [mk_sb_link (EId "A") (ENode w_node_b) "rel"; mk_sb_link (ENode w_node_b) (EId "B") "loop"].

Definition w_sim : sim := @init_simulation ConcreteRuntime.runtime LGrid 800 600 w_graph.

(* ------------------------------------------------------------------ *)
(** ** Layout: the force registry *)
Lemma alter_middle {A} (f : A -> A) (l1 l2 : list A) x :
  alter f (length l1) (app l1 (x :: l2)) = app l1 (f x :: l2).
Proof. induction l1; f_equal/=; auto. Qed.

Lemma lookup_app_add {A} (l1 l2 : list A) k :
  (app l1 l2) !! (length l1 + k)%nat = l2 !! k.
Proof. rewrite lookup_app_r by lia. f_equal. lia. Qed.

Lemma alter_head {A} (f : A -> A) (l : list A) x :
  alter f 0 (x :: l) = f x :: l.
Proof. reflexivity. Qed.

Lemma lookup_app_len {A} (l1 l2 : list A) :
  (app l1 l2) !! length l1 = l2 !! 0%nat.
Proof. rewrite lookup_app_r by lia. f_equal. lia. Qed.

Ltac heap_norm :=
  repeat progress (cbn [app length]; rewrite ?length_app, <- ?app_assoc,
                   ?alter_middle, ?alter_head).

Ltac names_case Hok :=
  rewrite !lookup_insert;
  repeat match goal with
  | |- context [decide (@eq string ?a ?b)] => destruct (decide (a = b)); subst
  end;
  cbn [option_bind];
  repeat match goal with
  | |- context [decide (?n ∈ ?l)] =>
      first [ rewrite (decide_True (P := n ∈ l)) by (apply bool_decide_unpack; reflexivity)
            | rewrite (decide_False (P := n ∈ l));
              [| cbn; rewrite !elem_of_cons, elem_of_nil; naive_solver] ]
  end;
  first
  [ rewrite <- ?Nat.add_assoc, ?lookup_app_add, ?lookup_app_len; reflexivity
  | match goal with
    | |- option_bind _ _ _ (?F !! ?n) = option_bind _ _ _ (?F !! ?n) =>
        destruct (F !! n) as [l|] eqn:E; [|reflexivity];
        specialize (Hok _ _ E); cbn in Hok; cbn [option_bind];
        rewrite lookup_app_l by lia; reflexivity
    end ].

Section LayoutFacts.
Context `{JS : JSRuntime}.
Lemma apply_force_at mode w h data s n :
  heap_ok s ->
  force_at (snd (applyLayoutForces mode w h data s)) n =
  if decide (n ∈ mode_names mode)
  then force_at (snd (applyLayoutForces mode w h data (mk_sim [] ∅ [] 1 true))) n
  else force_at s n.
Proof.
  intros Hok. destruct s as [N F H a r]. unfold heap_ok, map_Forall in Hok.
  destruct mode; cbv beta iota zeta delta [applyLayoutForces install mbind SimM_bind alloc_force
    sim_force modify_force sim_nodes sim_forces sim_heap sim_alpha sim_running force_at fst snd];
  heap_norm; names_case Hok.
Qed.

Lemma apply_nodes mode w h data s :
  sim_nodes (snd (applyLayoutForces mode w h data s)) = sim_nodes s.
Proof.
  destruct s as [N F H a r].
  destruct mode; cbv beta iota zeta delta [applyLayoutForces install mbind SimM_bind alloc_force
    sim_force modify_force sim_nodes sim_forces sim_heap sim_alpha sim_running fst snd];
  reflexivity.
Qed.

Lemma relayout_eq mode w h data s :
  snd (relayout mode w h data s) =
  let s2 := snd (applyLayoutForces mode w h data
                   (mk_sim (sim_nodes s) (clear_forces (sim_forces s)) (sim_heap s)
                           (sim_alpha s) (sim_running s))) in
  mk_sim (sim_nodes s2) (sim_forces s2) (sim_heap s2) 1 true.
Proof.
  destruct s as [N F H a r].
  cbv beta iota zeta delta [relayout mbind SimM_bind sim_force set_alpha restart
    sim_nodes sim_forces sim_heap sim_alpha sim_running clear_forces].
  destruct (applyLayoutForces mode w h data _) as [u [N2 F2 H2 a2 r2]].
  reflexivity.
Qed.

End LayoutFacts.

Lemma force_at_mk N F H a r n :
  force_at (mk_sim N F H a r) n = F !! n ≫= fun l => H !! l.
Proof. reflexivity. Qed.

Lemma clear_force_at N F H a r n :
  force_at (mk_sim N (clear_forces F) H a r) n =
  if decide (n ∈ force_names) then None else force_at (mk_sim N F H a r) n.
Proof.
  rewrite !force_at_mk. unfold clear_forces.
  rewrite !lookup_delete.
  repeat match goal with
  | |- context [decide (@eq string ?a ?b)] => destruct (decide (a = b)); subst
  end;
  try discriminate;
  case_decide as Hc; try reflexivity; exfalso;
  unfold force_names in Hc; rewrite ?elem_of_cons, ?elem_of_nil in Hc; naive_solver.
Qed.

Lemma heap_ok_clear N F H a r :
  heap_ok (mk_sim N F H a r) -> heap_ok (mk_sim N (clear_forces F) H a r).
Proof. unfold heap_ok, clear_forces; cbn. intros. repeat apply map_Forall_delete. done. Qed.

Lemma heap_ok_new nodes : heap_ok (new_simulation nodes).
Proof. apply map_Forall_empty. Qed.

Lemma mode_names_sub mode n : n ∈ mode_names mode -> n ∈ force_names.
Proof.
  unfold force_names; destruct mode; cbn; rewrite !elem_of_cons, ?elem_of_nil;
  naive_solver.
Qed.

Lemma grid_cols_spec n :
  (0 <= grid_cols n)%Z /\
  (3 * Z.of_nat n <= 2 * grid_cols n * grid_cols n)%Z /\
  (grid_cols n = 0%Z \/ 2 * (grid_cols n - 1) * (grid_cols n - 1) < 3 * Z.of_nat n)%Z.
Proof.
  unfold grid_cols, ceil_sqrt.
  cbv [inject_Z Qmult Qfloor Qeq_bool Qnum Qden].
  assert (HN : (0 <= Z.of_nat n)%Z) by lia.
  generalize dependent (Z.of_nat n). intros N HN.
  change (Z.pos (1 * 2)) with 2%Z.
  pose proof (Z.sqrt_spec (N * 3 / 2) ltac:(apply Z.div_pos; lia)) as [Hlo Hhi].
  pose proof (Z.sqrt_nonneg (N * 3 / 2)).
  pose proof (Z.mul_div_le (N * 3) 2 ltac:(lia)).
  pose proof (Z.mod_pos_bound (N * 3) 2 ltac:(lia)).
  pose proof (Z.div_mod (N * 3) 2 ltac:(lia)).
  set (r := Z.sqrt (N * 3 / 2)) in *.
  set (f := (N * 3 / 2)%Z) in *.
  destruct (Z.eqb (r * r * Z.pos 2) (N * 3 * Z.pos 1)) eqn:E.
  - apply Z.eqb_eq in E. split; [lia|split; [nia|]].
    destruct (Z.eq_dec r 0%Z); [left; lia | right; nia].
  - apply Z.eqb_neq in E. split; [lia|split; [nia|right; nia]].
Qed.

Section LayoutClaims.
Context `{JS : JSRuntime}.
Lemma layout_effect_some s w h mode data :
  layout_effect (Some s) (Some (w, h)) mode data = Some (snd (relayout mode w h data s)).
Proof. reflexivity. Qed.

(** C7.  After a layout switch (the layout-change effect with a
    simulation and a container), each of the seven force names is bound
    exactly as a fresh initialisation in the new mode binds it (so a name
    the new mode does not use, like x and y after grid to radial, is
    unbound); other names are untouched; node positions are kept, alpha
    is 1 and the timer runs. *)
Theorem layout_switch mode w h data s s' :
  heap_ok s ->
  layout_effect (Some s) (Some (w, h)) mode data = Some s' ->
  (forall n, n ∈ force_names -> force_at s' n = force_at (init_simulation mode w h data) n) /\
  (forall n, n ∈ force_names -> n ∉ mode_names mode -> force_at s' n = None) /\
  (forall n, n ∉ force_names -> force_at s' n = force_at s n) /\
  sim_nodes s' = sim_nodes s /\ sim_alpha s' = 1%Q /\ sim_running s' = true.
Proof.
  intros Hok Heff.
  rewrite layout_effect_some in Heff. apply (inj Some) in Heff. subst s'.
  rewrite relayout_eq. cbn zeta.
  destruct s as [N F H a r]. cbn [sim_nodes sim_forces sim_heap sim_alpha sim_running].
  pose proof (apply_nodes mode w h data (mk_sim N (clear_forces F) H a r)) as Hnodes.
  pose proof (fun n => apply_force_at mode w h data (mk_sim N (clear_forces F) H a r) n
                         (heap_ok_clear N F H a r Hok)) as Hf.
  pose proof (fun n => apply_force_at mode w h data (new_simulation (g_nodes data)) n
                         (heap_ok_new _)) as Hi.
  pose proof (fun n => clear_force_at N F H a r n) as Hc.
  unfold init_simulation.
  set (s0 := snd (applyLayoutForces mode w h data (new_simulation (g_nodes data)))) in *.
  clearbody s0.
  set (s2 := snd (applyLayoutForces mode w h data (mk_sim N (clear_forces F) H a r))) in *.
  clearbody s2.
  set (sf := snd (applyLayoutForces mode w h data (mk_sim [] ∅ [] 1 true))) in *.
  clearbody sf.
  assert (Hs2 : forall n, force_at (mk_sim (sim_nodes s2) (sim_forces s2) (sim_heap s2) 1 true) n
                          = force_at s2 n) by (intros; destruct s2; reflexivity).
  split; [|split; [|split; [|split; [|split]]]].
  - intros n Hn. rewrite Hs2, Hf, Hi. destruct (decide (n ∈ mode_names mode)); [reflexivity|].
    rewrite Hc, decide_True by exact Hn. reflexivity.
  - intros n Hn Hm. rewrite Hs2, Hf, decide_False by exact Hm.
    rewrite Hc, decide_True by exact Hn. reflexivity.
  - intros n Hn. rewrite Hs2, Hf, decide_False by (intros Hm; apply Hn, (mode_names_sub mode), Hm).
    rewrite Hc, decide_False by exact Hn. reflexivity.
  - exact Hnodes.
  - reflexivity.
  - reflexivity.
Qed.

(** C8.  In grid mode the x and y forces pull each node with strength 1
    to the target its index gives (column index mod cols, row index / cols,
    cells of 120 from an origin that puts the cols columns symmetric about
    the centre w/2), link strength is 0.01 and the charge is -50; cols is
    ceil(sqrt(1.5 n)): the least non-negative integer whose square is at
    least 1.5 n. *)
Theorem grid_layout w h data s :
  heap_ok s ->
  let s' := snd (applyLayoutForces LGrid w h data s) in
  let n := length (g_nodes data) in
  let cols := grid_cols n in
  force_at s' "x" = Some (FX (fun _ i => grid_x w cols i) 1) /\
  force_at s' "y" = Some (FY (fun _ i => grid_y h n cols i) 1) /\
  force_at s' "charge" = Some (FManyBody (-50)) /\
  force_at s' "link" = Some (FLink (g_links data) None (Some (1 # 100))) /\
  (0 <= cols)%Z /\ (3 * Z.of_nat n <= 2 * cols * cols)%Z /\
  (cols = 0%Z \/ 2 * (cols - 1) * (cols - 1) < 3 * Z.of_nat n)%Z /\
  ((0 < n)%nat -> (0 < cols)%Z /\ forall i : nat,
     grid_x w cols i = JFin (w / 2 - inject_Z cols * grid_scale / 2
                             + inject_Z (Z.of_nat i mod cols) * grid_scale) /\
     grid_y h n cols i = JFin (h / 2 - inject_Z (Z.of_nat n) / inject_Z cols * grid_scale / 2
                             + inject_Z (Z.of_nat i / cols) * grid_scale)).
Proof.
  intros Hok s' n cols.
  destruct (grid_cols_spec n) as (H0 & H1 & H2).
  split; [|split; [|split; [|split; [|split; [|split; [|split]]]]]]; try assumption.
  1-4: unfold s'; rewrite apply_force_at by exact Hok;
       (case_decide as Hd; [| exfalso; apply Hd; cbn; rewrite !elem_of_cons; naive_solver]);
       reflexivity.
  intros Hn. assert (Hc : (0 < cols)%Z) by (unfold n in *; lia).
  split; [exact Hc|]. intros i.
  unfold grid_x, grid_y. rewrite (proj2 (Z.eqb_neq cols 0%Z)) by lia. split; reflexivity.
Qed.
End LayoutClaims.

(* ------------------------------------------------------------------ *)
(** ** Parser *)

Lemma map_get_set k v mp : map_get k (map_set k v mp) = Some v.
Proof.
  induction mp as [|[k' v'] mp IH]; cbn; rewrite ?String.eqb_refl; [reflexivity|].
  destruct (String.eqb k k') eqn:E; cbn; rewrite ?String.eqb_refl, ?E; auto.
Qed.

Lemma map_get_set_ne k k' v mp : k <> k' -> map_get k' (map_set k v mp) = map_get k' mp.
Proof.
  intros Hne. induction mp as [|[k0 v0] mp IH]; cbn.
  - apply String.eqb_neq in Hne. rewrite String.eqb_sym, Hne. reflexivity.
  - destruct (String.eqb k k0) eqn:E; cbn.
    + apply String.eqb_eq in E; subst k0.
      apply String.eqb_neq in Hne. rewrite String.eqb_sym, Hne. reflexivity.
    + destruct (String.eqb k' k0); auto.
Qed.

Lemma map_has_get k mp : map_has k mp = match map_get k mp with Some _ => true | None => false end.
Proof.
  induction mp as [|[k' v'] mp IH]; cbn; [reflexivity|].
  destruct (String.eqb k k'); cbn; auto.
Qed.

(** Inserting when absent. *)
Lemma ensure_get e v mp k :
  map_get k (if map_has e mp then mp else map_set e v mp) =
  if String.eqb k e then Some (default v (map_get e mp)) else map_get k mp.
Proof.
  rewrite map_has_get. destruct (String.eqb k e) eqn:E.
  - apply String.eqb_eq in E; subst k.
    destruct (map_get e mp) eqn:G; cbn; [exact G|]. apply map_get_set.
  - apply String.eqb_neq in E.
    destruct (map_get e mp); [reflexivity|]. apply map_get_set_ne. congruence.
Qed.

Lemma split_char_aux_none c s cur :
  includes s (String c EmptyString) = false ->
  split_char_aux c s cur = [str_rev cur s].
Proof.
  revert cur. induction s as [|d r IH]; intros cur H; cbn in *; [reflexivity|].
  apply orb_false_iff in H as [H1 H2]. rewrite andb_true_r in H1. rewrite H1.
  apply IH, H2.
Qed.

Lemma split_char_none c s :
  includes s (String c EmptyString) = false -> split_char c s = [s].
Proof. intros H. unfold split_char. rewrite split_char_aux_none by exact H. reflexivity. Qed.

Lemma map_set_keys k v mp x :
  x ∈ map fst (map_set k v mp) -> x = k \/ x ∈ map fst mp.
Proof.
  induction mp as [|[k' v'] mp IH]; cbn; [set_solver|].
  destruct (String.eqb k k') eqn:E; cbn; [set_solver|].
  rewrite !elem_of_cons. intros [->|Hx]; [tauto|]. destruct (IH Hx); tauto.
Qed.

Lemma map_set_keys_nodup k v mp :
  NoDup (map fst mp) -> NoDup (map fst (map_set k v mp)).
Proof.
  induction mp as [|[k' v'] mp IH]; cbn; intros H.
  - constructor; [set_solver|constructor].
  - inversion H as [|? ? Hn Hd]; subst.
    destruct (String.eqb k k') eqn:E; cbn.
    + apply String.eqb_eq in E; subst. constructor; assumption.
    + apply String.eqb_neq in E.
      constructor; [|apply IH, Hd].
      intros Hin. destruct (map_set_keys _ _ _ _ Hin); [congruence|tauto].
Qed.

Lemma ensure_nodup e v mp :
  NoDup (map fst mp) -> NoDup (map fst (if map_has e mp then mp else map_set e v mp)).
Proof. intros H. destruct (map_has e mp); [exact H | apply map_set_keys_nodup, H]. Qed.

Lemma stake_app m r : stake (String.length m) (m ++ r) = m.
Proof. induction m; cbn; [reflexivity|]. f_equal; assumption. Qed.

Lemma sdrop_app_len m r : sdrop (String.length m) (m ++ r) = r.
Proof. induction m; cbn; [reflexivity|]. assumption. Qed.

Lemma strip_len m :
  String.length (String (chr 34) (m ++ String (chr 34) EmptyString)) = (String.length m + 2)%nat.
Proof.
  assert (H : forall r, String.length (m ++ r) = (String.length m + String.length r)%nat)
    by (intros r; induction m as [|c m IH]; simpl; [reflexivity | rewrite IH; reflexivity]).
  cbn [String.length]. rewrite H. cbn. lia.
Qed.

Section ParserClaims.
Context `{JS : JSRuntime}.

Lemma process_edge st line m :
  skipped (trim line) = false ->
  Regex.exec Regex.NODE_ATTR_REGEX (trim line) = None ->
  Regex.exec Regex.EDGE_REGEX (trim line) = Some m ->
  let source := default "" (m 1) in
  let target := default "" (m 2) in
  let attrs := match m 3 with
               | Some a => if String.eqb a "" then ∅ else parseAttributes a
               | None => ∅
               end in
  let nodes1 := if map_has source (ps_nodes st) then ps_nodes st
                else map_set source (obj_spread (node_base source source) (ps_style st))
                       (ps_nodes st) in
  process_line st line =
  mk_pstate (if map_has target nodes1 then nodes1
             else map_set target (obj_spread (node_base target target) (ps_style st)) nodes1)
            (ps_links st ++ [mk_link source target
                               (match attrs !! "label" with Some v => val_to_string v | None => "" end)])
            (ps_style st).
Proof.
  intros Hs Ha He. unfold process_line. cbv zeta. rewrite Hs, Ha, He. reflexivity.
Qed.

(** C1 (amended).  For a line the loop handles as an edge (not skipped,
    no style-directive match, an edge match), after the line both captured
    endpoint identifiers are keys of the node map.  An endpoint already
    present keeps its node; a missing one gets the node
    [{ id: e, label: e, ...currentNodeStyle }]: every key of the active
    style carries the style's value, and id and label are the identifier
    unless the active style sets them.  No other key changes. *)
Theorem edge_endpoints st line m :
  skipped (trim line) = false ->
  Regex.exec Regex.NODE_ATTR_REGEX (trim line) = None ->
  Regex.exec Regex.EDGE_REGEX (trim line) = Some m ->
  let source := default "" (m 1) in
  let target := default "" (m 2) in
  let fresh e := obj_spread (node_base e e) (ps_style st) in
  let nodes' := ps_nodes (process_line st line) in
  map_get source nodes' = Some (default (fresh source) (map_get source (ps_nodes st))) /\
  map_get target nodes' = Some (default (fresh target) (map_get target (ps_nodes st))) /\
  (forall k, k <> source -> k <> target -> map_get k nodes' = map_get k (ps_nodes st)) /\
  (forall e k v, ps_style st !! k = Some v -> fresh e !! k = Some v) /\
  (forall e, ps_style st !! "id" = None -> fresh e !! "id" = Some (VStr e)) /\
  (forall e, ps_style st !! "label" = None -> fresh e !! "label" = Some (VStr e)).
Proof.
  intros Hs Ha He source target fresh nodes'.
  unfold nodes'. rewrite (process_edge st line m Hs Ha He). cbn [ps_nodes].
  fold source target.
  split; [|split; [|split; [|split; [|split]]]].
  - rewrite ensure_get. destruct (String.eqb source target) eqn:E.
    + apply String.eqb_eq in E. rewrite ensure_get, <- E, String.eqb_refl.
      destruct (map_get source (ps_nodes st)); reflexivity.
    + rewrite ensure_get, String.eqb_refl. reflexivity.
  - rewrite ensure_get, String.eqb_refl, ensure_get.
    destruct (String.eqb target source) eqn:E.
    + apply String.eqb_eq in E. rewrite E.
      destruct (map_get source (ps_nodes st)); reflexivity.
    + reflexivity.
  - intros k H1 H2. apply String.eqb_neq in H1, H2.
    rewrite !ensure_get, H2, H1. reflexivity.
  - intros e k v Hk. unfold fresh, obj_spread. rewrite lookup_union, Hk.
    destruct (node_base e e !! k); reflexivity.
  - intros e Hk. unfold fresh, obj_spread. rewrite lookup_union, Hk. reflexivity.
  - intros e Hk. unfold fresh, obj_spread. rewrite lookup_union, Hk. reflexivity.
Qed.

Lemma process_nodup st line :
  NoDup (map fst (ps_nodes st)) -> NoDup (map fst (ps_nodes (process_line st line))).
Proof.
  intros H. unfold process_line. cbv zeta.
  destruct (skipped (trim line)); [exact H|].
  destruct (Regex.exec Regex.NODE_ATTR_REGEX (trim line)); [exact H|].
  destruct (Regex.exec Regex.EDGE_REGEX (trim line)) as [m|].
  { cbn [ps_nodes]. apply ensure_nodup, ensure_nodup, H. }
  destruct (Regex.exec Regex.NODE_DEF_REGEX (trim line)); [|exact H].
  destruct (includes (trim line) "->"); [exact H|].
  apply map_set_keys_nodup, H.
Qed.

Lemma process_frame st line k :
  is_Some (map_get k (ps_nodes st)) -> declared_id line <> Some k ->
  map_get k (ps_nodes (process_line st line)) = map_get k (ps_nodes st).
Proof.
  intros [v Hv] Hd. unfold process_line, declared_id in *. cbv zeta in *.
  destruct (skipped (trim line)); [reflexivity|].
  destruct (Regex.exec Regex.NODE_ATTR_REGEX (trim line)); [reflexivity|].
  destruct (Regex.exec Regex.EDGE_REGEX (trim line)) as [m|].
  { cbn [ps_nodes]. rewrite !ensure_get.
    destruct (String.eqb k (default "" (m 2))) eqn:E2.
    - apply String.eqb_eq in E2. rewrite <- E2, Hv.
      destruct (String.eqb k (default "" (m 1))) eqn:E1; [|reflexivity].
      apply String.eqb_eq in E1. rewrite <- E1, Hv. reflexivity.
    - destruct (String.eqb k (default "" (m 1))) eqn:E1; [|reflexivity].
      apply String.eqb_eq in E1. rewrite <- E1, Hv. reflexivity. }
  destruct (Regex.exec Regex.NODE_DEF_REGEX (trim line)) as [m|]; [|reflexivity].
  destruct (includes (trim line) "->"); [reflexivity|].
  cbn [ps_nodes]. apply map_get_set_ne. congruence.
Qed.

Lemma process_declares st line k :
  declared_id line = Some k -> is_Some (map_get k (ps_nodes (process_line st line))).
Proof.
  intros Hd. unfold process_line, declared_id in *. cbv zeta in *.
  destruct (skipped (trim line)); [discriminate|].
  destruct (Regex.exec Regex.NODE_ATTR_REGEX (trim line)); [discriminate|].
  destruct (Regex.exec Regex.EDGE_REGEX (trim line)); [discriminate|].
  destruct (Regex.exec Regex.NODE_DEF_REGEX (trim line)) as [m|]; [|discriminate].
  destruct (includes (trim line) "->"); [discriminate|].
  injection Hd as <-. cbn [ps_nodes]. rewrite map_get_set. eauto.
Qed.

Lemma run_lines_frame st post k :
  is_Some (map_get k (ps_nodes st)) -> Forall (fun l => declared_id l <> Some k) post ->
  map_get k (ps_nodes (run_lines st post)) = map_get k (ps_nodes st).
Proof.
  revert st. induction post as [|l post IH]; intros st Hs Hf; [reflexivity|].
  inversion Hf as [|? ? Hl Hp]; subst. cbn.
  unfold run_lines in IH. rewrite IH.
  - apply process_frame; assumption.
  - rewrite process_frame by assumption. exact Hs.
  - exact Hp.
Qed.

Lemma run_lines_nodup st ls :
  NoDup (map fst (ps_nodes st)) -> NoDup (map fst (ps_nodes (run_lines st ls))).
Proof.
  revert st. induction ls as [|l ls IH]; intros st H; [exact H|].
  cbn. apply (IH (process_line st l)), process_nodup, H.
Qed.

Lemma ensure_cases e v mp k n :
  map_get k (if map_has e mp then mp else map_set e v mp) = Some n ->
  map_get k mp = Some n \/ (k = e /\ n = v).
Proof.
  rewrite ensure_get. destruct (String.eqb k e) eqn:E; [|auto].
  apply String.eqb_eq in E. subst k.
  destruct (map_get e mp) eqn:G; cbn; intros [= <-]; auto.
Qed.

Lemma process_ids st line k n :
  map_get k (ps_nodes (process_line st line)) = Some n ->
  map_get k (ps_nodes st) = Some n \/
  (In k (mentions line) /\ n !! "id" = expected_id (own_attrs line) (ps_style st) k).
Proof.
  unfold process_line, mentions, edge_ends, declared_id, own_attrs. cbv zeta.
  destruct (skipped (trim line)); [auto|].
  destruct (Regex.exec Regex.NODE_ATTR_REGEX (trim line)); [auto|].
  destruct (Regex.exec Regex.EDGE_REGEX (trim line)) as [m|].
  { cbn [ps_nodes]. intros H.
    assert (Hfresh : forall e, obj_spread (node_base e e) (ps_style st) !! "id" =
                               expected_id ∅ (ps_style st) e).
    { intros e. unfold obj_spread, expected_id. rewrite lookup_union, lookup_empty.
      destruct (ps_style st !! "id"); reflexivity. }
    apply ensure_cases in H as [H | [-> ->]].
    - apply ensure_cases in H as [H | [-> ->]]; [auto|].
      right. split; [left; reflexivity|apply Hfresh].
    - right. split; [right; left; reflexivity|apply Hfresh]. }
  destruct (Regex.exec Regex.NODE_DEF_REGEX (trim line)) as [m|]; [|auto].
  destruct (includes (trim line) "->"); [auto|].
  cbn [ps_nodes]. intros H.
  destruct (String.eqb k (default "" (m 1))) eqn:E.
  - apply String.eqb_eq in E. subst k. rewrite map_get_set in H. injection H as <-.
    right. split; [left; reflexivity|].
    unfold obj_spread, expected_id. rewrite !lookup_union.
    assert (Hb : forall i l, node_base i l !! "id" = Some (VStr i))
      by (intros i l; unfold node_base; apply lookup_insert_eq).
    rewrite Hb.
    repeat match goal with |- context [?o !! "id"] => destruct (o !! "id") end;
      reflexivity.
  - apply String.eqb_neq in E. rewrite map_get_set_ne in H by congruence. auto.
Qed.

Lemma run_lines_ids ls k n :
  map_get k (ps_nodes (run_lines init_pstate ls)) = Some n ->
  exists pre line post, ls = app pre (line :: post) /\ In k (mentions line) /\
    n !! "id" = expected_id (own_attrs line) (ps_style (run_lines init_pstate pre)) k.
Proof.
  revert k n. induction ls as [|l ls IH] using rev_ind; intros k n; [discriminate|].
  unfold run_lines. rewrite fold_left_app. cbn [fold_left]. fold (run_lines init_pstate ls).
  intros H. apply process_ids in H as [H | [Hm Hid]].
  - destruct (IH k n H) as (pre & line & post & -> & Hm & Hid).
    exists pre, line, (app post [l]). rewrite <- app_assoc. auto.
  - exists ls, l, []. auto.
Qed.

(** C3 (amended).  The returned node list is the list of values of the
    node map, whose keys (the identifiers the lines name) are pairwise
    distinct; for a key declared by several node-definition lines, the
    final node under that key is the one the last of those lines
    produced, whatever edge or style lines follow it.  The id field of
    the node under a key is the key unless an id attribute is set: each
    node was built by a line naming its key, and its id field is that
    line's own [id] attribute (the block of a node definition) if it has
    one, else the [id] of the style active at that line if it has one,
    else the key. *)
Theorem node_ids_unique text :
  let lines := split_char (chr 10) text in
  let st := run_lines init_pstate lines in
  g_nodes (parseDotData text) = map snd (ps_nodes st) /\
  NoDup (map fst (ps_nodes st)) /\
  (forall pre line post k,
     lines = app pre (line :: post) -> declared_id line = Some k ->
     Forall (fun l => declared_id l <> Some k) post ->
     map_get k (ps_nodes st) =
     map_get k (ps_nodes (process_line (run_lines init_pstate pre) line))) /\
  (forall k n, map_get k (ps_nodes st) = Some n ->
     exists pre line post, lines = app pre (line :: post) /\ In k (mentions line) /\
       n !! "id" = expected_id (own_attrs line) (ps_style (run_lines init_pstate pre)) k).
Proof.
  intros lines st. split; [reflexivity|split; [|split]].
  - apply run_lines_nodup. constructor.
  - intros pre line post k Hl Hd Hp. unfold st. rewrite Hl.
    unfold run_lines. rewrite fold_left_app. cbn [fold_left].
    apply run_lines_frame; [apply process_declares, Hd | exact Hp].
  - exact (run_lines_ids lines).
Qed.

Lemma pa_step_other attrs p k :
  head (map trim (split_char "="%char p)) <> Some k ->
  pa_step attrs p !! k = attrs !! k.
Proof.
  unfold pa_step. destruct (map trim (split_char "="%char p)) as [|key [|value rest]];
    cbn; intros Hk; try reflexivity.
  destruct (negb (String.eqb key "") && negb (String.eqb value "")); [|reflexivity].
  unfold obj_set. destruct (String.eqb key "__proto__"); [reflexivity|].
  apply lookup_insert_ne. congruence.
Qed.

Lemma fold_pa_other attrs post k :
  Forall (fun p => head (map trim (split_char "="%char p)) <> Some k) post ->
  fold_left pa_step post attrs !! k = attrs !! k.
Proof.
  revert attrs. induction post as [|p post IH]; intros attrs Hf; [reflexivity|].
  inversion Hf; subst. cbn. rewrite IH by assumption. apply pa_step_other. assumption.
Qed.

Lemma app_cons_unit {A} (pre post : list A) x y :
  app pre (x :: post) = [y] -> pre = [] /\ x = y /\ post = [].
Proof.
  destruct pre as [|a [|b pre]]; cbn; intros H; inversion H; subst; auto.
Qed.

Lemma pa_step_values attrs p :
  map_Forall (fun _ v => exists c, v = attr_value c) attrs ->
  map_Forall (fun _ v => exists c, v = attr_value c) (pa_step attrs p).
Proof.
  intros H. unfold pa_step.
  destruct (map trim (split_char "="%char p)) as [|key [|value rest]]; try exact H.
  destruct (_ && _); [|exact H].
  unfold obj_set. destruct (String.eqb key "__proto__"); [exact H|].
  apply map_Forall_insert_2; eauto.
Qed.

Lemma parseAttributes_values s k v :
  parseAttributes s !! k = Some v -> exists c, v = attr_value c.
Proof.
  unfold parseAttributes. destruct (String.eqb s ""); [rewrite lookup_empty; discriminate|].
  assert (H : map_Forall (fun _ v => exists c, v = attr_value c)
                (fold_left pa_step (attr_split s) ∅)).
  { generalize (map_Forall_empty (M := gmap string) (fun (_ : string) (v : val) => exists c, v = attr_value c)).
    generalize (∅ : obj). induction (attr_split s) as [|p ps IH]; intros a Ha; [exact Ha|].
    cbn. apply IH, pa_step_values, Ha. }
  intros Hk. exact (H _ _ Hk).
Qed.

Lemma val_to_string_attr_value c : val_to_string (attr_value c) = c.
Proof.
  unfold attr_value. destruct (negb _ && String.eqb _ _) eqn:E; [|reflexivity].
  apply andb_true_iff in E as [_ E]. apply String.eqb_eq in E. exact E.
Qed.

Lemma pa_step_empty attrs part key value rest :
  map trim (split_char "="%char part) = key :: value :: rest ->
  key = "" \/ value = "" -> pa_step attrs part = attrs.
Proof.
  intros Hp Hkv. unfold pa_step. rewrite Hp.
  destruct Hkv as [-> | ->]; cbn; [reflexivity|].
  rewrite andb_false_r. reflexivity.
Qed.

(** C2 (amended).  For a part of an attribute block that contains exactly
    one [=], whose trimmed key and value are non-empty and whose key is
    not [__proto__], and that no later part of the block overrides, the
    block's object maps the key to the stored form of the value with its
    surrounding double quotes removed (a value of the form Q m Q, m free of
    line terminators, becomes m; a value not starting with Q is kept).
    The stored form is the number parseFloat gives exactly when it is not
    NaN and its String(...) is the string itself, and the string
    otherwise.  A pair whose trimmed key or trimmed value is empty is
    dropped: the part leaves the object unchanged, and the block's object
    is that of the remaining parts. *)
Theorem parse_attribute_pair :
  (forall s pre part post kraw vraw,
     attr_split s = app pre (part :: post) ->
     split_char "="%char part = [kraw; vraw] ->
     trim kraw <> "" -> trim kraw <> "__proto__" -> trim vraw <> "" ->
     Forall (fun p => head (map trim (split_char "="%char p)) <> Some (trim kraw)) post ->
     parseAttributes s !! trim kraw = Some (attr_value (strip_quotes (trim vraw)))) /\
  (forall m, forallb is_dot (list_ascii_of_string m) = true ->
     strip_quotes (String (chr 34) (m ++ String (chr 34) EmptyString)) = m) /\
  (forall v, starts_with (String (chr 34) EmptyString) v = false -> strip_quotes v = v) /\
  (forall c, attr_value c =
     if negb (isNaN (js_parseFloat c)) && String.eqb (js_numToString (js_parseFloat c)) c
     then VNum (js_parseFloat c) else VStr c) /\
  (forall c x, attr_value c = VNum x ->
     x = js_parseFloat c /\ isNaN x = false /\ js_numToString x = c) /\
  (forall c c', attr_value c = VStr c' -> c' = c) /\
  (forall attrs part key value rest,
     map trim (split_char "="%char part) = key :: value :: rest ->
     key = "" \/ value = "" -> pa_step attrs part = attrs) /\
  (forall s pre part post key value rest,
     attr_split s = app pre (part :: post) ->
     map trim (split_char "="%char part) = key :: value :: rest ->
     key = "" \/ value = "" ->
     parseAttributes s = fold_left pa_step (app pre post) ∅).
Proof.
  split; [|split; [|split; [|split; [|split; [|split; [|split]]]]]].
  - intros s pre part post kraw vraw Hs Hp Hk Hproto Hv Hpost.
    unfold parseAttributes. destruct (String.eqb s "") eqn:E.
    { apply String.eqb_eq in E. subst s. change (attr_split "") with [EmptyString] in Hs.
      symmetry in Hs. apply app_cons_unit in Hs as (_ & -> & _). cbn in Hp. discriminate. }
    rewrite Hs, fold_left_app. cbn [fold_left]. rewrite fold_pa_other by exact Hpost.
    unfold pa_step at 1. rewrite Hp. cbn [map].
    apply String.eqb_neq in Hk, Hv, Hproto. rewrite Hk, Hv. cbn.
    unfold obj_set. rewrite Hproto. apply lookup_insert_eq.
  - intros m Hm. unfold strip_quotes.
    rewrite strip_len.
    replace (String.length m + 2 - 2)%nat with (String.length m) by lia.
    replace (String.length m + 2 - 1)%nat with (S (String.length m)) by lia.
    rewrite (proj2 (Nat.leb_le 2 (String.length m + 2))) by lia.
    cbn [sdrop]. rewrite stake_app, sdrop_app_len. cbn. rewrite Ascii.eqb_refl, Hm. reflexivity.
  - intros v Hv. unfold strip_quotes. rewrite Hv. rewrite !andb_false_r, andb_false_l. reflexivity.
  - reflexivity.
  - intros c x. unfold attr_value.
    destruct (negb (isNaN (js_parseFloat c)) && String.eqb _ c) eqn:E; [|discriminate].
    intros H. injection H as <-. apply andb_true_iff in E as [E1 E2].
    apply negb_true_iff in E1. apply String.eqb_eq in E2. auto.
  - intros c c'. unfold attr_value.
    destruct (negb (isNaN (js_parseFloat c)) && String.eqb _ c); [discriminate|].
    intros H. injection H as <-. reflexivity.
  - exact pa_step_empty.
  - intros s pre part post key value rest Hs Hp Hkv. unfold parseAttributes.
    destruct (String.eqb s "") eqn:E.
    + apply String.eqb_eq in E. subst s.
      change (attr_split "") with [EmptyString] in Hs.
      symmetry in Hs. apply app_cons_unit in Hs as (-> & _ & ->). reflexivity.
    + rewrite Hs, !fold_left_app. cbn [fold_left].
      rewrite (pa_step_empty _ _ _ _ _ Hp Hkv). reflexivity.
Qed.

Lemma pa_step_no_eq attrs part :
  includes part (String "="%char EmptyString) = false -> pa_step attrs part = attrs.
Proof. intros H. unfold pa_step. rewrite split_char_none by exact H. reflexivity. Qed.

(** C9.  The parser never fails (it is a total function) and ignores what
    it does not recognise: a skipped line, or one matching none of the
    three patterns, leaves the state unchanged, so removing it from the
    input changes nothing; a part of an attribute block without [=] is
    dropped, and the block's object is that of the remaining parts. *)
Theorem parser_permissive :
  (forall st line, skipped (trim line) = true -> process_line st line = st) /\
  (forall st line,
     Regex.exec Regex.NODE_ATTR_REGEX (trim line) = None ->
     Regex.exec Regex.EDGE_REGEX (trim line) = None ->
     Regex.exec Regex.NODE_DEF_REGEX (trim line) = None ->
     process_line st line = st) /\
  (forall st pre line post,
     process_line (run_lines st pre) line = run_lines st pre ->
     run_lines st (app pre (line :: post)) = run_lines st (app pre post)) /\
  (forall attrs part,
     includes part (String "="%char EmptyString) = false -> pa_step attrs part = attrs) /\
  (forall s pre part post,
     attr_split s = app pre (part :: post) ->
     includes part (String "="%char EmptyString) = false ->
     parseAttributes s = fold_left pa_step (app pre post) ∅).
Proof.
  split; [|split; [|split; [|split]]].
  - intros st line H. unfold process_line. cbv zeta. rewrite H. reflexivity.
  - intros st line H1 H2 H3. unfold process_line. cbv zeta.
    destruct (skipped (trim line)); [reflexivity|]. rewrite H1, H2, H3. reflexivity.
  - intros st pre line post H. unfold run_lines in *.
    rewrite !fold_left_app. cbn [fold_left]. rewrite H. reflexivity.
  - exact pa_step_no_eq.
  - intros s pre part post Hs Hp. unfold parseAttributes.
    destruct (String.eqb s "") eqn:E.
    + apply String.eqb_eq in E. subst s.
      change (attr_split "") with [EmptyString] in Hs.
      symmetry in Hs. apply app_cons_unit in Hs as (-> & _ & ->). reflexivity.
    + rewrite Hs, !fold_left_app. cbn [fold_left]. rewrite pa_step_no_eq by exact Hp.
      reflexivity.
Qed.

(** C10.  Each edge line appends one link whose label is a string: the
    empty string when the block has no label, and otherwise the text the
    label was stored from (a label stored as a number is converted back
    by String(...), which gives that text again). *)
Theorem edge_label_string st line m :
  skipped (trim line) = false ->
  Regex.exec Regex.NODE_ATTR_REGEX (trim line) = None ->
  Regex.exec Regex.EDGE_REGEX (trim line) = Some m ->
  let attrs := match m 3 with
               | Some a => if String.eqb a "" then ∅ else parseAttributes a
               | None => ∅
               end in
  exists label : string,
    ps_links (process_line st line) =
      app (ps_links st) [mk_link (default "" (m 1)) (default "" (m 2)) label] /\
    (attrs !! "label" = None -> label = "") /\
    (forall v, attrs !! "label" = Some v -> exists c, v = attr_value c /\ label = c).
Proof.
  intros Hs Ha He attrs. rewrite (process_edge st line m Hs Ha He). cbn [ps_links]. fold attrs.
  eexists; split; [reflexivity|split].
  - intros H. rewrite H. reflexivity.
  - intros v Hv. rewrite Hv.
    assert (Hc : exists c, v = attr_value c).
    { unfold attrs in Hv. destruct (m 3) as [a|]; [|rewrite lookup_empty in Hv; discriminate].
      destruct (String.eqb a ""); [rewrite lookup_empty in Hv; discriminate|].
      exact (parseAttributes_values _ _ _ Hv). }
    destruct Hc as [c ->]. exists c. split; [reflexivity|]. apply val_to_string_attr_value.
Qed.

(** C4.  Lines are processed in order and a style directive only changes
    the active style: it leaves the nodes already built untouched, a later
    node definition takes the style active at its line, no other line
    changes the style; on the example input A gets color red and B gets
    color blue. *)
Theorem style_forward :
  (forall st line m,
     skipped (trim line) = false ->
     Regex.exec Regex.NODE_ATTR_REGEX (trim line) = Some m ->
     process_line st line =
     mk_pstate (ps_nodes st) (ps_links st)
       (obj_spread (ps_style st) (parseAttributes (default "" (m 1))))) /\
  (forall st line m,
     skipped (trim line) = false ->
     Regex.exec Regex.NODE_ATTR_REGEX (trim line) = None ->
     Regex.exec Regex.EDGE_REGEX (trim line) = None ->
     Regex.exec Regex.NODE_DEF_REGEX (trim line) = Some m ->
     includes (trim line) "->" = false ->
     let id := default "" (m 1) in
     let localAttrs := match m 2 with
                       | Some a => if String.eqb a "" then ∅ else parseAttributes a
                       | None => ∅
                       end in
     map_get id (ps_nodes (process_line st line)) =
       Some (obj_spread (obj_spread (node_base id (unescape_quotes id)) (ps_style st))
               localAttrs)) /\
  (forall st line, ps_style (process_line st line) = ps_style st \/
     exists m, skipped (trim line) = false /\
       Regex.exec Regex.NODE_ATTR_REGEX (trim line) = Some m) /\
  (forall st l1 l2, run_lines st (app l1 l2) = run_lines (run_lines st l1) l2) /\
  map (fun nd => (nd !! "id", nd !! "color"))
      (g_nodes (@parseDotData ConcreteRuntime.runtime c4_text)) =
    [(Some (VStr "A"), Some (VStr "red")); (Some (VStr "B"), Some (VStr "blue"))].
Proof.
  split; [|split; [|split; [|split]]].
  - intros st line m Hs Ha. unfold process_line. cbv zeta. rewrite Hs, Ha. reflexivity.
  - intros st line m Hs Ha He Hd Hi id localAttrs.
    unfold process_line. cbv zeta. rewrite Hs, Ha, He, Hd, Hi. cbn [ps_nodes].
    apply map_get_set.
  - intros st line. unfold process_line. cbv zeta.
    destruct (skipped (trim line)) eqn:Hs; [left; reflexivity|].
    destruct (Regex.exec Regex.NODE_ATTR_REGEX (trim line)) as [m|] eqn:Ha;
      [right; exists m; auto|left].
    destruct (Regex.exec Regex.EDGE_REGEX (trim line)); [reflexivity|].
    destruct (Regex.exec Regex.NODE_DEF_REGEX (trim line)); [|reflexivity].
    destruct (includes (trim line) "->"); reflexivity.
  - intros st l1 l2. unfold run_lines. apply fold_left_app.
  - vm_compute. reflexivity.
Qed.
End ParserClaims.

(* ------------------------------------------------------------------ *)
(** ** Classifier and display size *)

Lemma first_category_in l : first_category l edge_categories ∈ edge_colors.
Proof.
  apply list_elem_of_In. unfold edge_colors, first_category, edge_categories.
  repeat case_match; cbn; tauto.
Qed.

Section ClassifierClaims.
Context `{JS : JSRuntime}.

(** C5.  getEdgeColor is a function of its argument: a falsy argument
    (undefined, the empty string, ...) gives the other color; otherwise the
    result is the color of the first category in the order interaction,
    perception, structure, attribute, creation with a keyword that is a
    substring of the lower-cased String(label), or the other color if
    there is none.  The result is always one of six distinct colors. *)
Theorem getEdgeColor_classifies (label : jsval) :
  getEdgeColor label =
    (if jsval_truthy label
     then first_category (js_toLowerCase (jsval_to_string label)) edge_categories
     else other_color) /\
  getEdgeColor label ∈ edge_colors /\
  NoDup edge_colors /\ length edge_colors = 6%nat /\
  getEdgeColor JUndefined = other_color /\ getEdgeColor (JString "") = other_color.
Proof.
  assert (Heq : getEdgeColor label =
    (if jsval_truthy label
     then first_category (js_toLowerCase (jsval_to_string label)) edge_categories
     else other_color)) by (unfold getEdgeColor; destruct (jsval_truthy label); reflexivity).
  split; [exact Heq|split; [|split; [|split; [|split]]]].
  - rewrite Heq. destruct (jsval_truthy label).
    + apply first_category_in.
    + apply list_elem_of_In. cbn. tauto.
  - unfold edge_colors. cbn. repeat constructor; rewrite ?elem_of_cons, ?elem_of_nil;
      intros ?; naive_solver.
  - reflexivity.
  - reflexivity.
  - reflexivity.
Qed.

(** C6, the divergence: a declared width 0 is falsy, so [node.width || 1]
    replaces it by 1 and the size is 15, more than the 10 of the larger
    width 0.5; with no width the size is 15. *)
Theorem getSizeForNode_width_divergence :
  getSizeForNode ∅ = JFin 15 /\
  getSizeForNode (<["width" := VNum (JFin 0)]> ∅) = JFin 15 /\
  getSizeForNode (<["width" := VNum (JFin (1 # 2))]> ∅) = JFin (20 # 2) /\
  (0 <= 1 # 2)%Q /\ (20 # 2 < 15)%Q.
Proof.
  split; [reflexivity|split; [reflexivity|split; [reflexivity|split]]].
  - apply Qle_bool_imp_le. reflexivity.
  - reflexivity.
Qed.

End ClassifierClaims.

(* ------------------------------------------------------------------ *)
(** ** Parser: the nodes' attributes, closed links, order *)

Lemma has_keys_spread_l ks a b : has_keys ks a -> has_keys ks (obj_spread a b).
Proof.
  unfold has_keys, obj_spread. intros H. eapply Forall_impl; [exact H|].
  intros k Hk. apply lookup_union_is_Some. tauto.
Qed.

Lemma has_keys_spread_r ks a b : has_keys ks b -> has_keys ks (obj_spread a b).
Proof.
  unfold has_keys, obj_spread. intros H. eapply Forall_impl; [exact H|].
  intros k Hk. apply lookup_union_is_Some. tauto.
Qed.

Lemma has_keys_base i l : has_keys ["id"; "label"] (node_base i l).
Proof.
  unfold has_keys, node_base. repeat constructor.
  - rewrite lookup_insert_eq. eauto.
  - rewrite lookup_insert_ne by discriminate. rewrite lookup_insert_eq. eauto.
Qed.

Lemma has_keys_app ks1 ks2 o : has_keys ks1 o -> has_keys ks2 o -> has_keys (app ks1 ks2) o.
Proof. unfold has_keys. intros. apply Forall_app. tauto. Qed.

Lemma Forall_map_set (P : node -> Prop) k v mp :
  Forall (fun p => P (snd p)) mp -> P v -> Forall (fun p => P (snd p)) (map_set k v mp).
Proof.
  induction mp as [|[k' v'] mp IH]; cbn; intros H Hv.
  - repeat constructor. exact Hv.
  - inversion H; subst. destruct (String.eqb k k'); constructor; auto.
Qed.

Lemma Forall_ensure (P : node -> Prop) e v mp :
  Forall (fun p => P (snd p)) mp -> P v ->
  Forall (fun p => P (snd p)) (if map_has e mp then mp else map_set e v mp).
Proof. intros. destruct (map_has e mp); [assumption|apply Forall_map_set; assumption]. Qed.

Lemma map_has_set k k' v mp : map_has k mp = true -> map_has k (map_set k' v mp) = true.
Proof.
  induction mp as [|[k'' v''] mp IH]; cbn; [discriminate|].
  destruct (String.eqb k' k'') eqn:E; cbn.
  - apply String.eqb_eq in E. subst. tauto.
  - intros H. apply orb_true_iff in H as [H|H]; apply orb_true_iff;
      [left; exact H|right; apply IH, H].
Qed.

Lemma map_has_set_eq k v mp : map_has k (map_set k v mp) = true.
Proof. rewrite map_has_get, map_get_set. reflexivity. Qed.

Lemma map_has_ensure k e v mp :
  map_has k mp = true -> map_has k (if map_has e mp then mp else map_set e v mp) = true.
Proof. intros H. destruct (map_has e mp); [exact H|apply map_has_set, H]. Qed.

Lemma map_has_ensure_eq e v mp :
  map_has e (if map_has e mp then mp else map_set e v mp) = true.
Proof. destruct (map_has e mp) eqn:E; [exact E|apply map_has_set_eq]. Qed.

Lemma map_has_fst k mp : map_has k mp = existsb (String.eqb k) (map fst mp).
Proof. induction mp as [|[k' v'] mp IH]; cbn; [reflexivity|]. rewrite IH. reflexivity. Qed.

Lemma map_fst_set k v mp : map fst (map_set k v mp) = add_new (map fst mp) k.
Proof.
  unfold add_new. induction mp as [|[k' v'] mp IH]; cbn; [reflexivity|].
  destruct (String.eqb k k') eqn:E; cbn.
  - apply String.eqb_eq in E. subst. reflexivity.
  - rewrite IH. destruct (existsb (String.eqb k) (map fst mp)); reflexivity.
Qed.

Lemma map_fst_ensure e v mp :
  map fst (if map_has e mp then mp else map_set e v mp) = add_new (map fst mp) e.
Proof.
  rewrite map_has_fst. destruct (existsb (String.eqb e) (map fst mp)) eqn:E.
  - unfold add_new. rewrite E. reflexivity.
  - rewrite map_fst_set. unfold add_new. rewrite E. reflexivity.
Qed.

Section ParserInvariants.
Context `{JS : JSRuntime}.

Lemma process_keys st line : pinv_keys st -> pinv_keys (process_line st line).
Proof.
  intros [Hs Hn]. unfold process_line. cbv zeta.
  destruct (skipped (trim line)); [split; assumption|].
  destruct (Regex.exec Regex.NODE_ATTR_REGEX (trim line)).
  { split; cbn [ps_style ps_nodes]; [apply has_keys_spread_l, Hs|exact Hn]. }
  assert (Hnew : forall e, has_keys node_required_keys
                             (obj_spread (node_base e e) (ps_style st))).
  { intros e. apply (has_keys_app ["id"; "label"] style_keys).
    - apply has_keys_spread_l, has_keys_base.
    - apply has_keys_spread_r, Hs. }
  destruct (Regex.exec Regex.EDGE_REGEX (trim line)).
  { split; cbn [ps_style ps_nodes]; [exact Hs|].
    apply Forall_ensure; [apply Forall_ensure|]; auto. }
  destruct (Regex.exec Regex.NODE_DEF_REGEX (trim line)); [|split; assumption].
  destruct (includes (trim line) "->"); [split; assumption|].
  split; cbn [ps_style ps_nodes]; [exact Hs|].
  apply Forall_map_set; [exact Hn|].
  apply has_keys_spread_l, (has_keys_app ["id"; "label"] style_keys).
  - apply has_keys_spread_l, has_keys_base.
  - apply has_keys_spread_r, Hs.
Qed.

Lemma run_keys st ls : pinv_keys st -> pinv_keys (run_lines st ls).
Proof.
  revert st. induction ls as [|l ls IH]; intros st H; [exact H|].
  cbn. apply (IH (process_line st l)), process_keys, H.
Qed.

Lemma init_keys : pinv_keys init_pstate.
Proof.
  split; [|constructor]. unfold has_keys. refine (bool_decide_unpack _ _).
  vm_compute. reflexivity.
Qed.

(** Every node the parser returns has an [id], a [label] and the eight
    style attributes (fontname, shape, style, color, fillcolor, fontsize,
    width, height): [node[...]] lines only ever add to the style. *)
Theorem parse_nodes_have_keys text :
  Forall (has_keys node_required_keys) (g_nodes (parseDotData text)).
Proof.
  unfold parseDotData. cbn [g_nodes]. apply Forall_map.
  apply (run_keys init_pstate _ init_keys).
Qed.

(** Links point at nodes. *)
Lemma process_links st line : pinv_links st -> pinv_links (process_line st line).
Proof.
  unfold pinv_links. intros H. unfold process_line. cbv zeta.
  destruct (skipped (trim line)); [exact H|].
  destruct (Regex.exec Regex.NODE_ATTR_REGEX (trim line)); [exact H|].
  destruct (Regex.exec Regex.EDGE_REGEX (trim line)) as [m|].
  { cbn [ps_nodes ps_links]. apply Forall_app; split.
    - eapply Forall_impl; [exact H|]. intros l [H1 H2].
      split; apply map_has_ensure, map_has_ensure; assumption.
    - constructor; [|constructor]. cbn [link_source link_target]. split.
      + apply map_has_ensure, map_has_ensure_eq.
      + apply map_has_ensure_eq. }
  destruct (Regex.exec Regex.NODE_DEF_REGEX (trim line)); [|exact H].
  destruct (includes (trim line) "->"); [exact H|].
  cbn [ps_nodes ps_links]. eapply Forall_impl; [exact H|].
  intros l [H1 H2]. split; apply map_has_set; assumption.
Qed.

Lemma run_links st ls : pinv_links st -> pinv_links (run_lines st ls).
Proof.
  revert st. induction ls as [|l ls IH]; intros st H; [exact H|].
  cbn. apply (IH (process_line st l)), process_links, H.
Qed.

Lemma map_get_values k n mp : map_get k mp = Some n -> In n (map snd mp).
Proof.
  induction mp as [|[k' v] mp IH]; cbn; [discriminate|].
  destruct (String.eqb k k'); [intros [= <-]; left; reflexivity|].
  intros H. right. exact (IH H).
Qed.

(** Every link the parser returns has as its source and its target keys
    of the parser's node map, and the node stored under each of them is
    one of the returned nodes: an edge line creates its missing ends. *)
Theorem parse_links_closed text :
  Forall (fun l =>
            (exists ns, map_get (link_source l) (ps_nodes (parse_state text)) = Some ns /\
                        In ns (g_nodes (parseDotData text))) /\
            (exists nt, map_get (link_target l) (ps_nodes (parse_state text)) = Some nt /\
                        In nt (g_nodes (parseDotData text))))
         (g_links (parseDotData text)).
Proof.
  pose proof (run_links init_pstate (split_char (chr 10) text) (Forall_nil_2 _)) as H.
  unfold pinv_links in H. unfold parseDotData, parse_state. cbn [g_links g_nodes].
  eapply Forall_impl; [exact H|]. intros l [H1 H2].
  rewrite map_has_get in H1, H2.
  split.
  - destruct (map_get (link_source l) _) as [n|] eqn:G; [|discriminate].
    exists n. split; [reflexivity|exact (map_get_values _ _ _ G)].
  - destruct (map_get (link_target l) _) as [n|] eqn:G; [|discriminate].
    exists n. split; [reflexivity|exact (map_get_values _ _ _ G)].
Qed.

Lemma process_order st line :
  map fst (ps_nodes (process_line st line)) =
  fold_left add_new (mentions line) (map fst (ps_nodes st)).
Proof.
  unfold process_line, mentions, edge_ends, declared_id. cbv zeta.
  destruct (skipped (trim line)); [reflexivity|].
  destruct (Regex.exec Regex.NODE_ATTR_REGEX (trim line)); [reflexivity|].
  destruct (Regex.exec Regex.EDGE_REGEX (trim line)) as [m|].
  { cbn [ps_nodes fold_left]. rewrite !map_fst_ensure. reflexivity. }
  destruct (Regex.exec Regex.NODE_DEF_REGEX (trim line)); [|reflexivity].
  destruct (includes (trim line) "->"); [reflexivity|].
  cbn [ps_nodes fold_left]. apply map_fst_set.
Qed.

Lemma run_order st ls :
  map fst (ps_nodes (run_lines st ls)) =
  fold_left add_new (flat_map mentions ls) (map fst (ps_nodes st)).
Proof.
  revert st. induction ls as [|l ls IH]; intros st; [reflexivity|].
  cbn. unfold run_lines in IH. rewrite IH, process_order, fold_left_app. reflexivity.
Qed.

(** The parser returns one node per identifier, in the order of first
    mention, whether the mention is an edge end or a node definition. *)
Theorem parse_node_order text :
  map fst (ps_nodes (parse_state text)) =
    first_occurrences (flat_map mentions (split_char (chr 10) text)) /\
  g_nodes (parseDotData text) = map snd (ps_nodes (parse_state text)).
Proof. split; [apply run_order|reflexivity]. Qed.

Lemma process_ends st line :
  map ends (ps_links (process_line st line)) =
  app (map ends (ps_links st))
      (match edge_ends line with Some p => [p] | None => [] end).
Proof.
  unfold process_line, edge_ends. cbv zeta.
  destruct (skipped (trim line)); [rewrite app_nil_r; reflexivity|].
  destruct (Regex.exec Regex.NODE_ATTR_REGEX (trim line)); [rewrite app_nil_r; reflexivity|].
  destruct (Regex.exec Regex.EDGE_REGEX (trim line)) as [m|].
  { cbn [ps_links]. rewrite map_app. reflexivity. }
  rewrite app_nil_r.
  destruct (Regex.exec Regex.NODE_DEF_REGEX (trim line)); [|reflexivity].
  destruct (includes (trim line) "->"); reflexivity.
Qed.

(** The parser returns one link per edge line, in the order of the lines,
    with the two identifiers of the line as its ends. *)
Theorem parse_link_order text :
  map ends (g_links (parseDotData text)) =
    flat_map (fun line => match edge_ends line with Some p => [p] | None => [] end)
             (split_char (chr 10) text).
Proof.
  unfold parseDotData. cbn [g_links].
  assert (H : forall st ls, map ends (ps_links (run_lines st ls)) =
             app (map ends (ps_links st))
                 (flat_map (fun line => match edge_ends line with Some p => [p] | None => [] end) ls)).
  { intros st ls. revert st. induction ls as [|l ls IH]; intros st; cbn.
    - rewrite app_nil_r. reflexivity.
    - unfold run_lines in IH. rewrite IH, process_ends, app_assoc. reflexivity. }
  rewrite H. reflexivity.
Qed.

End ParserInvariants.

(* ------------------------------------------------------------------ *)
(** ** Trim and attribute keys *)

Lemma all_chars_app f a b : all_chars f (a ++ b) = all_chars f a && all_chars f b.
Proof.
  unfold all_chars. induction a as [|c a IH]; [reflexivity|].
  change (String c a ++ b)%string with (String c (a ++ b)).
  change (list_ascii_of_string (String c ?x)) with (c :: list_ascii_of_string x).
  change (forallb f (c :: ?l)) with (f c && forallb f l).
  rewrite IH, andb_assoc. reflexivity.
Qed.

Lemma all_chars_rev f a b : all_chars f (str_rev a b) = all_chars f a && all_chars f b.
Proof.
  revert b. induction a as [|c a IH]; intros b; cbn [str_rev]; [reflexivity|].
  rewrite IH. unfold all_chars. cbn. destruct (f c), (forallb f (list_ascii_of_string a)),
    (forallb f (list_ascii_of_string b)); reflexivity.
Qed.

Lemma sapp_cons x (a b : string) : (String x a ++ b)%string = String x (a ++ b).
Proof. reflexivity. Qed.

Lemma sapp_assoc (a b c : string) : (a ++ (b ++ c) = (a ++ b) ++ c)%string.
Proof. induction a as [|x a IH]; [reflexivity|]. rewrite !sapp_cons, IH. reflexivity. Qed.

Lemma sapp_nil_r (a : string) : (a ++ "")%string = a.
Proof. induction a as [|x a IH]; [reflexivity|]. rewrite sapp_cons, IH. reflexivity. Qed.

Lemma str_rev_acc s acc : str_rev s acc = (str_rev s "" ++ acc)%string.
Proof.
  revert acc. induction s as [|c s IH]; intros acc; cbn [str_rev]; [reflexivity|].
  rewrite (IH (String c acc)), (IH (String c "")).
  rewrite <- sapp_assoc. reflexivity.
Qed.

Lemma str_rev_app a b : str_rev (a ++ b) "" = (str_rev b "" ++ str_rev a "")%string.
Proof.
  induction a as [|c a IH].
  - symmetry. apply sapp_nil_r.
  - rewrite sapp_cons. cbn [str_rev].
    rewrite (str_rev_acc (a ++ b)), (str_rev_acc a), IH, sapp_assoc. reflexivity.
Qed.

Lemma str_rev_involutive s : str_rev (str_rev s "") "" = s.
Proof.
  induction s as [|c s IH]; cbn [str_rev]; [reflexivity|].
  rewrite (str_rev_acc s (String c "")), str_rev_app, IH. reflexivity.
Qed.

Lemma trim_start_split s : exists p, all_chars is_ws p = true /\ s = (p ++ trim_start s)%string.
Proof.
  induction s as [|c s IH]; cbn [trim_start]; [exists ""; split; reflexivity|].
  destruct (is_ws c) eqn:E.
  - destruct IH as (p & Hp & Hs). exists (String c p). split.
    + unfold all_chars in *. cbn. rewrite E, Hp. reflexivity.
    + rewrite sapp_cons, <- Hs. reflexivity.
  - exists "". split; reflexivity.
Qed.

Lemma lead_ok_trim_start s : lead_ok (trim_start s) = true.
Proof. induction s as [|c s IH]; cbn; [reflexivity|]. destruct (is_ws c) eqn:E; cbn; [exact IH|rewrite E; reflexivity]. Qed.

Lemma trim_start_ok s : lead_ok s = true -> trim_start s = s.
Proof. destruct s as [|c s]; cbn; [reflexivity|]. destruct (is_ws c); [discriminate|reflexivity]. Qed.

Lemma lead_ok_app a b : lead_ok (a ++ b) = true -> lead_ok a = true.
Proof. destruct a; cbn; auto. Qed.

(** The pieces of [trim]: [s = p ++ trim s ++ q] with [p] and [q] white
    space, and [trim s] neither starts nor ends with white space. *)
Lemma trim_split s :
  exists p q, all_chars is_ws p = true /\ all_chars is_ws q = true /\
    s = (p ++ trim s ++ q)%string /\
    lead_ok (trim s) = true /\ lead_ok (str_rev (trim s) "") = true.
Proof.
  unfold trim.
  destruct (trim_start_split s) as (p1 & Hp1 & Hs).
  set (t := trim_start s) in *.
  destruct (trim_start_split (str_rev t "")) as (p2 & Hp2 & Hu).
  set (v := trim_start (str_rev t "")) in *.
  assert (Ht : t = (str_rev v "" ++ str_rev p2 "")%string).
  { rewrite <- (str_rev_involutive t), Hu, str_rev_app. reflexivity. }
  exists p1, (str_rev p2 ""). split; [exact Hp1|split; [|split; [|split]]].
  - rewrite all_chars_rev, Hp2. reflexivity.
  - rewrite Hs at 1. rewrite Ht. reflexivity.
  - apply (lead_ok_app _ (str_rev p2 "")). rewrite <- Ht. apply lead_ok_trim_start.
  - rewrite str_rev_involutive. apply lead_ok_trim_start.
Qed.

Lemma trim_idem s : trim (trim s) = trim s.
Proof.
  destruct (trim_split s) as (_ & _ & _ & _ & _ & H1 & H2).
  unfold trim in *. set (r := str_rev (trim_start (str_rev (trim_start s) "")) "") in *.
  rewrite (trim_start_ok r H1), (trim_start_ok _ H2), str_rev_involutive. reflexivity.
Qed.

(** [trim] (as used by the parser) is idempotent and removes exactly a
    white-space prefix and suffix: what is left neither starts nor ends
    with white space. *)
Theorem trim_spec s :
  trim (trim s) = trim s /\
  exists p q, all_chars is_ws p = true /\ all_chars is_ws q = true /\
    s = (p ++ trim s ++ q)%string /\
    lead_ok (trim s) = true /\ lead_ok (str_rev (trim s) "") = true.
Proof. split; [apply trim_idem|apply trim_split]. Qed.

Lemma all_chars_trim f s : all_chars f s = true -> all_chars f (trim s) = true.
Proof.
  destruct (trim_split s) as (p & q & _ & _ & Hs & _). intros H.
  rewrite Hs, !all_chars_app in H. apply andb_true_iff in H as [_ H].
  apply andb_true_iff in H as [H _]. exact H.
Qed.

Lemma split_char_aux_pieces c s cur :
  all_chars (not_char c) cur = true ->
  Forall (fun x => all_chars (not_char c) x = true) (split_char_aux c s cur).
Proof.
  revert cur. induction s as [|d r IH]; intros cur Hc; cbn.
  - constructor; [|constructor]. rewrite all_chars_rev, Hc. reflexivity.
  - destruct (Ascii.eqb c d) eqn:E.
    + constructor; [rewrite all_chars_rev, Hc; reflexivity|]. apply IH. reflexivity.
    + apply IH. unfold all_chars in *. cbn. unfold not_char at 1. rewrite E, Hc. reflexivity.
Qed.

Section AttrKeys.
Context `{JS : JSRuntime}.

Lemma pa_step_keys attrs part :
  (forall k v, attrs !! k = Some v -> key_ok k) ->
  forall k v, pa_step attrs part !! k = Some v -> key_ok k.
Proof.
  intros H. unfold pa_step.
  pose proof (split_char_aux_pieces "="%char part EmptyString eq_refl) as Hp.
  unfold split_char. destruct (split_char_aux "="%char part "") as [|x [|y rest]] eqn:E;
    cbn [map]; try exact H.
  inversion Hp as [|? ? Hx _]; subst.
  destruct (negb (String.eqb (trim x) "") && negb (String.eqb (trim y) "")) eqn:G; [|exact H].
  apply andb_true_iff in G as [G1 _]. apply negb_true_iff, String.eqb_neq in G1.
  unfold obj_set. destruct (String.eqb (trim x) "__proto__") eqn:P; [exact H|].
  apply String.eqb_neq in P.
  intros k v. destruct (decide (k = trim x)) as [->|Hne].
  - intros _. split; [exact G1|split; [exact P|split]].
    + apply trim_idem.
    + apply all_chars_trim, Hx.
  - rewrite lookup_insert_ne by congruence. apply H.
Qed.

(** The keys of the object [parseAttributes] returns are never empty,
    never [__proto__], trimmed and free of [=]. *)
Theorem parseAttributes_keys s k v :
  parseAttributes s !! k = Some v ->
  k <> "" /\ k <> "__proto__" /\ trim k = k /\ all_chars (not_char "="%char) k = true.
Proof.
  unfold parseAttributes. destruct (String.eqb s ""); [rewrite lookup_empty; discriminate|].
  assert (G : forall l attrs, (forall k v, attrs !! k = Some v -> key_ok k) ->
              forall k v, fold_left pa_step l attrs !! k = Some v -> key_ok k).
  { induction l as [|p l IH]; intros attrs Ha; cbn; [exact Ha|].
    apply IH, pa_step_keys, Ha. }
  apply G. intros k' v'. rewrite lookup_empty. discriminate.
Qed.

End AttrKeys.

(* ------------------------------------------------------------------ *)
(** ** Legend and arrow markers *)

Section Markers.
Context `{JS : JSRuntime}.

Lemma getEdgeColor_cases label :
  getEdgeColor label ∈ map li_color EDGE_LEGEND.
Proof.
  unfold getEdgeColor. cbv zeta.
  repeat match goal with |- context [if ?b then _ else _] => destruct b end;
  cbn; rewrite ?elem_of_cons; tauto.
Qed.

(** Every link's [marker-end] refers to an arrowhead marker the component
    defines (one per legend entry, their ids pairwise distinct), the one
    of the legend entry whose color is the link's stroke color. *)
Theorem link_marker_defined label :
  (exists cat, In cat EDGE_LEGEND /\ li_color cat = getEdgeColor label /\
     link_marker_end label = "url(#" ++ marker_id (li_color cat) ++ ")") /\
  NoDup (map (fun cat => marker_id (li_color cat)) EDGE_LEGEND).
Proof.
  split.
  - pose proof (getEdgeColor_cases label) as H.
    apply list_elem_of_In, in_map_iff in H as (cat & Hc & Hin).
    exists cat. split; [exact Hin|split; [exact Hc|]].
    unfold link_marker_end, marker_id. rewrite Hc. reflexivity.
  - cbn. repeat constructor; rewrite ?elem_of_cons, ?elem_of_nil; intros ?; naive_solver.
Qed.

End Markers.

(* ------------------------------------------------------------------ *)
(** ** Layout: radial bands, grid, subset groups, the registry *)

Section LayoutExtras.
Context `{JS : JSRuntime}.

Lemma num_gt_fin q b : num_gt (JFin q) b = true <-> (b < q)%Q.
Proof.
  cbn. rewrite negb_true_iff. split; intros H.
  - apply Qnot_le_lt. intros Hle. apply Qle_bool_iff in Hle. congruence.
  - destruct (Qle_bool q b) eqn:E; [|reflexivity].
    apply Qle_bool_iff in E. exfalso. apply (Qlt_not_le _ _ H E).
Qed.

(** The radial layout puts every node on one of four rings (0, 250, 500,
    800), a node whose size is NaN on the outermost, and a larger finite
    size never on an outer ring. *)
Theorem radial_radius_bands :
  (forall d, In (radial_radius d) [0; 250; 500; 800]%Q) /\
  (forall d, getSizeForNode d = JNaN -> radial_radius d = 800%Q) /\
  (forall d1 d2 q1 q2, getSizeForNode d1 = JFin q1 -> getSizeForNode d2 = JFin q2 ->
     (q1 <= q2)%Q -> (radial_radius d2 <= radial_radius d1)%Q).
Proof.
  split; [|split].
  - intros d. unfold radial_radius.
    destruct (num_gt _ 40); [cbn; tauto|].
    destruct (num_gt _ 30); [cbn; tauto|].
    destruct (num_gt _ 20); cbn; tauto.
  - intros d H. unfold radial_radius. rewrite H. reflexivity.
  - intros d1 d2 q1 q2 H1 H2 Hq. unfold radial_radius. rewrite H1, H2.
    destruct (num_gt (JFin q1) 40) eqn:A1; destruct (num_gt (JFin q1) 30) eqn:B1;
    destruct (num_gt (JFin q1) 20) eqn:C1;
    destruct (num_gt (JFin q2) 40) eqn:A2; destruct (num_gt (JFin q2) 30) eqn:B2;
    destruct (num_gt (JFin q2) 20) eqn:C2;
    repeat match goal with
    | H : num_gt _ _ = true |- _ => apply num_gt_fin in H
    | H : num_gt _ _ = false |- _ =>
        rewrite <- not_true_iff_false, num_gt_fin in H
    end;
    lra.
Qed.

End LayoutExtras.

Section GridExtras.
Local Open Scope Q_scope.

Lemma JFin_inj (a b : Q) : JFin a = JFin b -> a == b.
Proof. intros E. injection E as E. rewrite E. reflexivity. Qed.

Lemma inject_Z_scaled_inj a b :
  inject_Z a * grid_scale == inject_Z b * grid_scale -> a = b.
Proof.
  intros H. apply Qmult_inj_r in H; [|unfold grid_scale; discriminate].
  apply inject_Z_injective. exact H.
Qed.

(** With at least one node the grid gives each index its own target. *)
Theorem grid_targets_injective w h n i j :
  (0 < n)%nat ->
  grid_x w (grid_cols n) i = grid_x w (grid_cols n) j ->
  grid_y h n (grid_cols n) i = grid_y h n (grid_cols n) j ->
  i = j.
Proof.
  intros Hn Hx Hy.
  destruct (grid_cols_spec n) as (H0 & H1 & _).
  set (c := grid_cols n) in *.
  assert (Hc : (0 < c)%Z) by nia.
  unfold grid_x, grid_y in Hx, Hy.
  replace (Z.eqb c 0) with false in Hx, Hy by (symmetry; apply Z.eqb_neq; lia).
  apply JFin_inj in Hx. apply JFin_inj in Hy.
  assert (Ex : (Z.of_nat i mod c = Z.of_nat j mod c)%Z).
  { apply inject_Z_scaled_inj. apply (Qplus_inj_l _ _ (w / 2 - inject_Z c * grid_scale / 2)).
    rewrite Hx. reflexivity. }
  assert (Ey : (Z.of_nat i / c = Z.of_nat j / c)%Z).
  { apply inject_Z_scaled_inj.
    apply (Qplus_inj_l _ _ (h / 2 - inject_Z (Z.of_nat n) / inject_Z c * grid_scale / 2)).
    rewrite Hy. reflexivity. }
  pose proof (Z.div_mod (Z.of_nat i) c ltac:(lia)).
  pose proof (Z.div_mod (Z.of_nat j) c ltac:(lia)).
  lia.
Qed.

End GridExtras.

Section SubsetExtras.
Context `{JS : JSRuntime}.
Local Open Scope Q_scope.

Lemma same_value_zero_sym a b : same_value_zero a b = same_value_zero b a.
Proof.
  destruct a as [x|[x|x|]], b as [y|[y|y|]]; cbn; try reflexivity.
  - apply String.eqb_sym.
  - destruct (Qeq_bool x y) eqn:E1, (Qeq_bool y x) eqn:E2; try reflexivity;
      apply Qeq_bool_iff in E1 || apply Qeq_bool_iff in E2;
      [rewrite <- not_true_iff_false in E2 | rewrite <- not_true_iff_false in E1];
      exfalso; [apply E2 | apply E1]; apply Qeq_bool_iff; symmetry; assumption.
  - destruct x, y; reflexivity.
Qed.

Lemma ForallOrdPairs_snoc {A} (R : A -> A -> Prop) l v :
  ForallOrdPairs R l -> Forall (fun a => R a v) l -> ForallOrdPairs R (app l [v]).
Proof.
  induction l as [|a l IH]; intros Hl Hv; cbn.
  - repeat constructor.
  - inversion Hl as [|? ? Ha Hl']; subst. inversion Hv as [|? ? Hav Hv']; subst.
    constructor; [apply Forall_app; split; [exact Ha|constructor; [exact Hav|constructor]]|].
    apply IH; assumption.
Qed.

Lemma set_from_fold xs : set_from xs = fold_left set_step xs [].
Proof. reflexivity. Qed.

Lemma set_fold_spec xs acc :
  ForallOrdPairs (fun a b => same_value_zero a b = false) acc ->
  let r := fold_left set_step xs acc in
  ForallOrdPairs (fun a b => same_value_zero a b = false) r /\
  (forall v, In v r -> In v acc \/ In v xs) /\
  (forall v, In v acc -> In v r) /\
  (forall v, In v xs -> exists g, In g r /\ same_value_zero v g = true).
Proof.
  revert acc. induction xs as [|x xs IH]; intros acc Hacc; cbn.
  - split; [exact Hacc|split; [tauto|split; [tauto|intros _ []]]].
  - assert (Hstep : ForallOrdPairs (fun a b => same_value_zero a b = false) (set_step acc x) /\
                    (forall v, In v (set_step acc x) -> In v acc \/ v = x) /\
                    (forall v, In v acc -> In v (set_step acc x)) /\
                    exists g, In g (set_step acc x) /\ same_value_zero x g = true).
    { unfold set_step. destruct (existsb (same_value_zero x) acc) eqn:E.
      - apply existsb_exists in E as (g & Hg & Hs).
        split; [exact Hacc|split; [tauto|split; [tauto|exists g; tauto]]].
      - split; [|split; [|split]].
        + apply ForallOrdPairs_snoc; [exact Hacc|].
          apply Forall_forall. intros a Ha. rewrite same_value_zero_sym.
          destruct (same_value_zero x a) eqn:Ex; [|reflexivity].
          assert (existsb (same_value_zero x) acc = true) by (apply existsb_exists; exists a; split; [apply list_elem_of_In|]; assumption).
          congruence.
        + intros v Hv. apply in_app_or in Hv as [Hv|[Hv|[]]]; [left|right]; auto.
        + intros v Hv. apply in_or_app. left; exact Hv.
        + exists x. split; [apply in_or_app; right; left; reflexivity|].
          destruct x as [s|[q|b|]]; cbn; [apply String.eqb_refl|apply Qeq_bool_refl|
            destruct b; reflexivity|reflexivity]. }
    destruct Hstep as (H1 & H2 & H3 & g & Hg & Hxg).
    destruct (IH _ H1) as (R1 & R2 & R3 & R4).
    split; [exact R1|split; [|split]].
    + intros v Hv. destruct (R2 v Hv) as [Hv'|Hv']; [|right; right; exact Hv'].
      destruct (H2 v Hv') as [Hin | ->]; [left; assumption|right; left; reflexivity].
    + intros v Hv. apply R3, H3, Hv.
    + intros v [->|Hv]; [exists g; split; [apply R3, Hg|exact Hxg]|apply R4, Hv].
Qed.

Lemma group_centers_keys (w h : Q) groups :
  forall g, In g groups -> is_Some (group_centers w h groups !! prop_key g).
Proof.
  unfold group_centers. cbv zeta.
  generalize (length groups) as cnt.
  intros cnt g Hg.
  assert (Hgen : forall l (acc : gmap string (Q * Q)) (i : nat),
    (is_Some (acc !! prop_key g) \/ In g l) ->
    is_Some (fst (fold_left (fun '(acc, i) color =>
         (<[prop_key color := (w / 2 + Qmin w h * (35 # 100) *
              js_cos (inject_Z (Z.of_nat i) / inject_Z (Z.of_nat cnt) * 2 * js_PI),
            h / 2 + Qmin w h * (35 # 100) *
              js_sin (inject_Z (Z.of_nat i) / inject_Z (Z.of_nat cnt) * 2 * js_PI))]> acc, S i))
       l (acc, i)) !! prop_key g)).
  { induction l as [|c l IH]; intros acc i Hin; cbn.
    - destruct Hin as [Hin|[]]; exact Hin.
    - apply IH. destruct Hin as [Hin|[->|Hin]]; [left|left|right; exact Hin].
      + destruct (decide (prop_key c = prop_key g)) as [->|Hne];
          [rewrite lookup_insert_eq; eauto|rewrite lookup_insert_ne by exact Hne; exact Hin].
      + rewrite lookup_insert_eq. eauto. }
  apply Hgen. right. exact Hg.
Qed.

(** The subset layout's groups: pairwise distinct under SameValueZero, each
    the fill of some node, and every node whose fill is a string has a
    center under that string. *)
Theorem subset_groups_cover (w h : Q) (nodes : list node) :
  let groups := set_from (map fill_or_default nodes) in
  ForallOrdPairs (fun a b => same_value_zero a b = false) groups /\
  (forall g, In g groups -> exists d, In d nodes /\ fill_or_default d = g) /\
  (forall d s, In d nodes -> fill_or_default d = VStr s ->
     is_Some (group_centers w h groups !! s)).
Proof.
  cbv zeta. rewrite set_from_fold.
  destruct (set_fold_spec (map fill_or_default nodes) [] (FOP_nil _)) as (R1 & R2 & _ & R4).
  split; [exact R1|split].
  - intros g Hg. destruct (R2 g Hg) as [[]|Hin].
    apply in_map_iff in Hin as (d & Hd & Hin). eauto.
  - intros d s Hd Hs.
    destruct (R4 (VStr s)) as (g & Hg & Hsv).
    { rewrite <- Hs. apply in_map, Hd. }
    destruct g as [s'|n]; [|discriminate].
    apply String.eqb_eq in Hsv. subst s'.
    rewrite <- set_from_fold in Hg.
    exact (group_centers_keys w h _ (VStr s) Hg).
Qed.

End SubsetExtras.

Section ForceExtras.
Context `{JS : JSRuntime}.
Local Open Scope Q_scope.

Lemma heap_ok_apply mode w h data s :
  heap_ok s -> heap_ok (snd (applyLayoutForces mode w h data s)).
Proof.
  intros Hok. destruct s as [N Fm H a r]. unfold heap_ok in *.
  cbn [sim_forces sim_heap] in Hok.
  destruct mode; cbv beta iota zeta delta [applyLayoutForces install mbind SimM_bind alloc_force
    sim_force modify_force sim_nodes sim_forces sim_heap sim_alpha sim_running fst snd];
  heap_norm;
  repeat (apply map_Forall_insert_2; [cbn [length]; lia|]);
  (eapply map_Forall_impl; [exact Hok|]); intros ? ? Hx; cbn beta in Hx; cbn [length]; lia.
Qed.

Lemma relayout_parts mode w h data s :
  let s' := snd (relayout mode w h data s) in
  let s2 := snd (applyLayoutForces mode w h data
                   (mk_sim (sim_nodes s) (clear_forces (sim_forces s)) (sim_heap s)
                           (sim_alpha s) (sim_running s))) in
  sim_nodes s' = sim_nodes s /\ sim_forces s' = sim_forces s2 /\ sim_heap s' = sim_heap s2 /\
  sim_alpha s' = 1 /\ sim_running s' = true.
Proof.
  intros s' s2. unfold s'. rewrite relayout_eq. cbn zeta. fold s2.
  pose proof (apply_nodes mode w h data
    (mk_sim (sim_nodes s) (clear_forces (sim_forces s)) (sim_heap s) (sim_alpha s) (sim_running s)))
    as Hn. fold s2 in Hn.
  cbn. repeat split; assumption || reflexivity.
Qed.

Lemma heap_ok_relayout mode w h data s :
  heap_ok s -> heap_ok (snd (relayout mode w h data s)).
Proof.
  intros Hok.
  destruct (relayout_parts mode w h data s) as (_ & Hf & Hh & _).
  destruct s as [N Fm H a r]. cbn [sim_nodes sim_forces sim_heap sim_alpha sim_running] in *.
  unfold heap_ok. rewrite Hf, Hh. apply heap_ok_apply, heap_ok_clear, Hok.
Qed.

Lemma relayout_force_at mode w h data s n :
  heap_ok s ->
  force_at (snd (relayout mode w h data s)) n =
  if decide (n ∈ force_names) then force_at (init_simulation mode w h data) n
  else force_at s n.
Proof.
  intros Hok.
  destruct (relayout_parts mode w h data s) as (_ & Hf & Hh & _).
  unfold force_at at 1. rewrite Hf, Hh. fold (force_at (snd (applyLayoutForces mode w h data
    (mk_sim (sim_nodes s) (clear_forces (sim_forces s)) (sim_heap s) (sim_alpha s) (sim_running s)))) n).
  destruct s as [N Fm H a r]. cbn [sim_nodes sim_forces sim_heap sim_alpha sim_running].
  rewrite apply_force_at by (apply heap_ok_clear, Hok).
  unfold init_simulation. rewrite (apply_force_at mode w h data _ n (heap_ok_new _)).
  destruct (decide (n ∈ mode_names mode)) as [Hm|Hm].
  - rewrite decide_True by (apply (mode_names_sub mode), Hm). reflexivity.
  - rewrite clear_force_at. case_decide; reflexivity.
Qed.

(** Layout switches do not depend on history: after any earlier switch,
    a switch binds every name as the same switch from the original
    simulation, and keeps the nodes. *)
Theorem relayout_history_independent m1 w1 h1 d1 m2 w2 h2 d2 s :
  heap_ok s ->
  let s1 := snd (relayout m1 w1 h1 d1 s) in
  (forall n, force_at (snd (relayout m2 w2 h2 d2 s1)) n = force_at (snd (relayout m2 w2 h2 d2 s)) n) /\
  sim_nodes (snd (relayout m2 w2 h2 d2 s1)) = sim_nodes (snd (relayout m2 w2 h2 d2 s)).
Proof.
  intros Hok s1.
  assert (Hok1 : heap_ok s1) by (apply (heap_ok_relayout m1 w1 h1 d1 s Hok)).
  split.
  - intros n. rewrite (relayout_force_at _ _ _ _ s1 n Hok1), (relayout_force_at _ _ _ _ s n Hok).
    case_decide as Hn; [reflexivity|].
    unfold s1. rewrite (relayout_force_at _ _ _ _ s n Hok), decide_False by exact Hn. reflexivity.
  - destruct (relayout_parts m2 w2 h2 d2 s1) as (-> & _).
    destruct (relayout_parts m2 w2 h2 d2 s) as (-> & _).
    destruct (relayout_parts m1 w1 h1 d1 s) as (H1 & _). exact H1.
Qed.

End ForceExtras.

(* ------------------------------------------------------------------ *)
(** ** The Sidebar and the highlighting and auto-center effects *)

Section SidebarFacts.
Context `{JS : JSRuntime}.
Local Open Scope Q_scope.

Lemma strict_eq_str a x : strict_eq a (Some (VStr x)) = true <-> a = Some (VStr x).
Proof.
  split; [|intros ->; cbn; apply String.eqb_refl].
  destruct a as [[s|[q|b|]]|]; cbn; try discriminate.
  intros H. apply String.eqb_eq in H. subst. reflexivity.
Qed.

Lemma strict_eq_str_l b x : strict_eq (Some (VStr x)) b = true <-> b = Some (VStr x).
Proof.
  split; [|intros ->; cbn; apply String.eqb_refl].
  destruct b as [[s|[q|b|]]|]; cbn; try discriminate.
  intros H. apply String.eqb_eq in H. subst. reflexivity.
Qed.

Lemma svz_str a x : svz_opt (Some (VStr x)) a = true <-> a = Some (VStr x).
Proof.
  split; [|intros ->; cbn; apply String.eqb_refl].
  destruct a as [[s|[q|b|]]|]; cbn; try discriminate.
  intros H. apply String.eqb_eq in H. subst. reflexivity.
Qed.

Lemma set_has_add_str x z S :
  set_has (Some (VStr x)) (set_add z S) = true <->
  set_has (Some (VStr x)) S = true \/ z = Some (VStr x).
Proof.
  unfold set_add, set_has. destruct (existsb (svz_opt z) S) eqn:E.
  - split; [intros H; left; exact H|]. intros [H| ->]; [exact H|exact E].
  - rewrite existsb_app. cbn [existsb]. rewrite orb_false_r, orb_true_iff, svz_str. tauto.
Qed.

Lemma set_has_nil x : set_has (Some (VStr x)) [] = false.
Proof. reflexivity. Qed.

Lemma eq_or_neq_str (a : option val) x (b : bool) :
  strict_eq a (Some (VStr x)) = b -> if b then a = Some (VStr x) else a <> Some (VStr x).
Proof.
  intros <-. destruct (strict_eq a (Some (VStr x))) eqn:E.
  - apply strict_eq_str, E.
  - intros H. apply strict_eq_str in H. congruence.
Qed.

Lemma linked_step_has sel x acc l :
  set_has (Some (VStr x)) (linked_step sel acc l) = true <->
  set_has (Some (VStr x)) acc = true \/
  (ep_id (sl_source l) = Some (VStr sel) /\ ep_id (sl_target l) = Some (VStr x)) \/
  (ep_id (sl_target l) = Some (VStr sel) /\ ep_id (sl_source l) = Some (VStr x)).
Proof.
  unfold linked_step.
  destruct (strict_eq (ep_id (sl_source l)) (Some (VStr sel))) eqn:Es;
  destruct (strict_eq (ep_id (sl_target l)) (Some (VStr sel))) eqn:Et;
  apply eq_or_neq_str in Es; apply eq_or_neq_str in Et;
  rewrite ?set_has_add_str; intuition congruence.
Qed.

Lemma linked_fold sel x links acc :
  set_has (Some (VStr x)) (fold_left (linked_step sel) links acc) = true <->
  set_has (Some (VStr x)) acc = true \/
  exists l, In l links /\
    ((ep_id (sl_source l) = Some (VStr sel) /\ ep_id (sl_target l) = Some (VStr x)) \/
     (ep_id (sl_target l) = Some (VStr sel) /\ ep_id (sl_source l) = Some (VStr x))).
Proof.
  revert acc. induction links as [|l links IH]; intros acc; cbn [fold_left].
  - split; [tauto|]. intros [H|(l & [] & _)]; exact H.
  - rewrite IH, linked_step_has. split.
    + intros [[H|H]|(l' & Hl' & H)]; [left; exact H|right; exists l; split; [left; reflexivity|exact H]|
        right; exists l'; split; [right; exact Hl'|exact H]].
    + intros [H|(l' & [<-|Hl'] & H)]; [left; left; exact H|left; right; exact H|
        right; exists l'; split; [exact Hl'|exact H]].
Qed.

Lemma find_id_some (nodes : list node) nid (d' : node) x :
  List.find (fun n => strict_eq (n !! "id") nid) nodes = Some d' ->
  d' !! "id" = Some (VStr x) -> nid = Some (VStr x).
Proof.
  intros Hf Hd. apply find_some in Hf as [_ Hf]. rewrite Hd in Hf.
  apply strict_eq_str_l, Hf.
Qed.

Lemma find_id_exists (nodes : list node) (d : node) x :
  In d nodes -> d !! "id" = Some (VStr x) ->
  exists d', List.find (fun n => strict_eq (n !! "id") (Some (VStr x))) nodes = Some d' /\
             d' !! "id" = Some (VStr x).
Proof.
  intros Hin Hd.
  destruct (List.find (fun n => strict_eq (n !! "id") (Some (VStr x))) nodes) as [d'|] eqn:E.
  - exists d'. split; [reflexivity|]. apply find_some in E as [_ E]. apply strict_eq_str, E.
  - exfalso. pose proof (find_none _ _ E d Hin) as H. cbn beta in H.
    rewrite Hd in H. cbn in H. rewrite String.eqb_refl in H. discriminate.
Qed.

Lemma linked_ids_has sel x links :
  set_has (Some (VStr x)) (linked_ids sel links) = true <->
  x = sel \/
  exists l, In l links /\
    ((ep_id (sl_source l) = Some (VStr sel) /\ ep_id (sl_target l) = Some (VStr x)) \/
     (ep_id (sl_target l) = Some (VStr sel) /\ ep_id (sl_source l) = Some (VStr x))).
Proof.
  change (linked_ids sel links) with
    (fold_left (linked_step sel) links (set_add (Some (VStr sel)) [])).
  rewrite linked_fold, set_has_add_str, set_has_nil.
  split; (intros [[H|H]|H] || intros [H|H]); try discriminate; try tauto.
  - left. congruence.
  - left. right. subst. reflexivity.
Qed.

(** The graph and the Sidebar agree on a selection: with a node selected,
    a node of the graph is shown at full opacity exactly when it is the
    selected one or a node the Sidebar lists among its connections. *)
Theorem selection_highlight_matches_sidebar (nodes : list node) links sel ty (d : node) x :
  sel <> "" -> In d nodes -> d !! "id" = Some (VStr x) ->
  (node_opacity (Some sel) ty links d = 1 <->
   x = sel \/ exists e, In e (neighbors nodes links (Some sel)) /\
                        exists d', nb_node e = Some d' /\ d' !! "id" = Some (VStr x)).
Proof.
  intros Hsel Hin Hd.
  unfold node_opacity. rewrite (proj2 (String.eqb_neq sel "") Hsel), Hd.
  assert (E : (if set_has (Some (VStr x)) (linked_ids sel links) then 1 else 15 # 100) = 1 <->
              set_has (Some (VStr x)) (linked_ids sel links) = true)
    by (destruct (set_has _ _); split; congruence).
  rewrite E, linked_ids_has. clear E.
  unfold neighbors. rewrite (proj2 (String.eqb_neq sel "") Hsel).
  split.
  - intros [Hx|(l & Hl & H)]; [left; exact Hx|].
    destruct (strict_eq (ep_id (sl_source l)) (Some (VStr sel))) eqn:Es.
    + apply strict_eq_str in Es.
      destruct H as [[_ Ht]|[Ht Hs]]; [|left; congruence].
      destruct (find_id_exists nodes d x Hin Hd) as (d' & Hf & Hd').
      right. eexists. split.
      * apply in_map_iff. exists l. split; [reflexivity|].
        apply filter_In. split; [exact Hl|]. cbn beta.
        rewrite (proj2 (strict_eq_str _ _) Es). reflexivity.
      * cbn beta zeta. rewrite (proj2 (strict_eq_str _ _) Es), Ht. cbn [nb_node]. eauto.
    + destruct H as [[Hs _]|[Ht Hs]]; [apply strict_eq_str in Hs; congruence|].
      destruct (find_id_exists nodes d x Hin Hd) as (d' & Hf & Hd').
      right. eexists. split.
      * apply in_map_iff. exists l. split; [reflexivity|].
        apply filter_In. split; [exact Hl|]. cbn beta.
        rewrite (proj2 (strict_eq_str _ _) Ht), orb_true_r. reflexivity.
      * cbn beta zeta. rewrite Es, Hs. cbn [nb_node]. eauto.
  - intros [Hx|(e & He & d' & Hn & Hd')]; [left; exact Hx|right].
    apply in_map_iff in He as (l & <- & Hl). apply filter_In in Hl as [Hl Hp].
    exists l. split; [exact Hl|]. cbn beta zeta in Hn, Hp.
    destruct (strict_eq (ep_id (sl_source l)) (Some (VStr sel))) eqn:Es;
      cbn [nb_node] in Hn; apply find_id_some with (x := x) in Hn; [|exact Hd'| |exact Hd'].
    + left. split; [apply strict_eq_str, Es|exact Hn].
    + right. split; [apply strict_eq_str, Hp|exact Hn].
Qed.

Lemma relevant_fold ty x links acc :
  set_has (Some (VStr x)) (fold_left (relevant_step ty) links acc) = true <->
  set_has (Some (VStr x)) acc = true \/
  exists l, In l links /\ sl_label l = ty /\
    (ep_id (sl_source l) = Some (VStr x) \/ ep_id (sl_target l) = Some (VStr x)).
Proof.
  revert acc. induction links as [|l links IH]; intros acc; cbn [fold_left].
  - split; [tauto|]. intros [H|(l & [] & _)]; exact H.
  - rewrite IH. unfold relevant_step at 1.
    destruct (String.eqb (sl_label l) ty) eqn:E.
    + apply String.eqb_eq in E. rewrite !set_has_add_str. split.
      * intros [[[H|H]|H]|(l' & Hl' & H)].
        -- left; exact H.
        -- right; exists l; split; [left; reflexivity|tauto].
        -- right; exists l; split; [left; reflexivity|tauto].
        -- right; exists l'; split; [right; exact Hl'|exact H].
      * intros [H|(l' & [<-|Hl'] & H)]; [tauto|tauto|right; exists l'; tauto].
    + apply String.eqb_neq in E. split.
      * intros [H|(l' & Hl' & H)]; [left; exact H|right; exists l'; split; [right; exact Hl'|exact H]].
      * intros [H|(l' & [<-|Hl'] & H)]; [left; exact H|tauto|right; exists l'; tauto].
Qed.

(** In link-type mode (no node selected) a node is shown at full opacity
    exactly when it is an end of a link of that type. *)
Theorem link_type_highlight sel links ty (d : node) x :
  no_selection sel = true -> ty <> "" -> d !! "id" = Some (VStr x) ->
  (node_opacity sel (Some ty) links d = 1 <->
   exists l, In l links /\ sl_label l = ty /\
     (ep_id (sl_source l) = Some (VStr x) \/ ep_id (sl_target l) = Some (VStr x))).
Proof.
  intros Hsel Hty Hd.
  assert (Hm : node_opacity sel (Some ty) links d =
               if set_has (Some (VStr x)) (fold_left (relevant_step ty) links []) then 1 else 15 # 100).
  { unfold node_opacity. rewrite (proj2 (String.eqb_neq ty "") Hty), Hd.
    destruct sel as [s|]; [|reflexivity]. cbn in Hsel. rewrite Hsel. reflexivity. }
  rewrite Hm. clear Hm.
  destruct (set_has (Some (VStr x)) (fold_left (relevant_step ty) links [])) eqn:E.
  - apply relevant_fold in E as [E|E]; [discriminate|]. split; [intros _; exact E|reflexivity].
  - split; [discriminate|]. intros H. rewrite <- not_true_iff_false in E. exfalso; apply E.
    apply relevant_fold. right. exact H.
Qed.

Lemma filter_labels_none needle ns :
  filter_labels needle ns = None <-> Exists (fun n => ~ label_is_string n) ns.
Proof.
  induction ns as [|n ns IH]; cbn.
  - split; [discriminate|intros H; inversion H].
  - rewrite Exists_cons. unfold label_is_string.
    destruct (n !! "label") as [[l|v]|] eqn:E.
    + destruct (filter_labels needle ns) eqn:F; cbn.
      * split; [discriminate|]. intros [H|H]; [exfalso; apply H; eauto|].
        apply IH in H. discriminate.
      * split; [intros _; right; apply IH; reflexivity|reflexivity].
    + split; [intros _; left; intros (l & Hl); discriminate|reflexivity].
    + split; [intros _; left; intros (l & Hl); discriminate|reflexivity].
Qed.

Lemma filter_labels_some needle ns :
  Forall label_is_string ns ->
  filter_labels needle ns = Some (List.filter (label_matches needle) ns).
Proof.
  induction ns as [|n ns IH]; intros Hf; [reflexivity|].
  inversion Hf as [|? ? (l & Hl) Hf']; subst.
  cbn [filter_labels]. rewrite Hl, (IH Hf'). cbn [List.filter]. replace (label_matches needle n) with (includes (js_toLowerCase l) needle) by (unfold label_matches; rewrite Hl; reflexivity). reflexivity.
Qed.

Lemma filter_labels_sound needle ns r :
  filter_labels needle ns = Some r ->
  Forall (fun n => In n ns /\ label_matches needle n = true) r.
Proof.
  revert r. induction ns as [|n ns IH]; intros r H; cbn in H.
  - injection H as <-. constructor.
  - destruct (n !! "label") as [[l|v]|] eqn:E; try discriminate.
    destruct (filter_labels needle ns) as [rest|] eqn:F; [|discriminate].
    cbn in H. injection H as <-.
    assert (Hr : Forall (fun m => In m (n :: ns) /\ label_matches needle m = true) rest).
    { eapply Forall_impl; [apply IH; reflexivity|]. intros m [Hm Hm']. split; [right; exact Hm|exact Hm']. }
    destruct (includes (js_toLowerCase l) needle) eqn:I; [|exact Hr].
    constructor; [|exact Hr]. split; [left; reflexivity|]. unfold label_matches. rewrite E. exact I.
Qed.

Lemma Forall_firstn_ {A} (P : A -> Prop) k l : Forall P l -> Forall P (firstn k l).
Proof.
  revert l. induction k as [|k IH]; intros l H; [constructor|].
  destruct l as [|a l]; [constructor|]. inversion H; subst. cbn. constructor; auto.
Qed.

Lemma length_firstn_le {A} k (l : list A) : (length (firstn k l) <= k)%nat.
Proof. apply firstn_le_length.
Qed.

(** The Sidebar's search: with a non-empty term it throws exactly when
    some node's label is not a string, and otherwise lists the first ten
    nodes whose lower-cased label contains the lower-cased term. *)
Theorem filteredNodes_outcome (nodes : list node) term :
  term <> "" ->
  (filteredNodes nodes term = None <-> Exists (fun n => ~ label_is_string n) nodes) /\
  (Forall label_is_string nodes ->
   filteredNodes nodes term =
   Some (firstn 10 (List.filter (label_matches (js_toLowerCase term)) nodes))).
Proof.
  intros Ht. unfold filteredNodes. rewrite (proj2 (String.eqb_neq term "") Ht).
  split.
  - rewrite <- (filter_labels_none (js_toLowerCase term)). destruct (filter_labels (js_toLowerCase term) nodes); cbn [option_map]; split; congruence.
  - intros Hf. rewrite filter_labels_some by exact Hf. reflexivity.
Qed.

(** Whatever the term, the search lists at most ten nodes, each a node of
    the graph whose lower-cased label contains the lower-cased term. *)
Theorem filteredNodes_results (nodes : list node) term r :
  filteredNodes nodes term = Some r ->
  (length r <= 10)%nat /\
  Forall (fun n => In n nodes /\ label_matches (js_toLowerCase term) n = true) r.
Proof.
  unfold filteredNodes. intros H.
  destruct (String.eqb term "").
  - injection H as <-. split; [cbn; lia|constructor].
  - destruct (filter_labels (js_toLowerCase term) nodes) as [r0|] eqn:F; [|discriminate].
    cbn in H. injection H as <-. split; [apply length_firstn_le|].
    apply Forall_firstn_, filter_labels_sound, F.
Qed.

(** The auto-center effect on a node with finite coordinates: the zoom
    goes to scale 1.3 and the transform maps the node to the centre of the
    container; a NaN coordinate (its [typeof] is still [number]) gives a
    NaN translation. *)
Theorem auto_center_targets (nodes : list node) sel w h (d : node) :
  sel <> "" -> selectedNode nodes (Some sel) = Some d ->
  (forall qx qy, d !! "x" = Some (VNum (JFin qx)) -> d !! "y" = Some (VNum (JFin qy)) ->
   exists t, auto_center nodes (Some sel) true (Some (w, h)) = Some t /\ zk t == 13 # 10 /\
     exists px py, zt_apply t (JFin qx, JFin qy) = (JFin px, JFin py) /\
                   px == w / 2 /\ py == h / 2) /\
  (forall y, d !! "x" = Some (VNum JNaN) -> d !! "y" = Some (VNum y) ->
   exists t, auto_center nodes (Some sel) true (Some (w, h)) = Some t /\ zx t = JNaN).
Proof.
  intros Hsel Hd. cbn in Hd.
  unfold auto_center. rewrite (proj2 (String.eqb_neq sel "") Hsel), Hd. cbn [orb negb].
  split.
  - intros qx qy Hx Hy. rewrite Hx, Hy. eexists. split; [reflexivity|].
    unfold zt_translate, zt_scale, zoomIdentity. cbn [num_neg num_is_zero].
    destruct (Qeq_bool (w / 2) 0) eqn:A; destruct (Qeq_bool (h / 2) 0) eqn:B;
    destruct (Qeq_bool (- qx) 0) eqn:C; destruct (Qeq_bool (- qy) 0) eqn:D;
    cbn [andb zk zx zy zt_apply fst snd num_add num_scale];
    (replace (Qeq_bool (13 # 10) 1) with false by reflexivity);
    cbn [zk zx zy zt_apply fst snd num_add num_scale];
    repeat match goal with H : Qeq_bool _ _ = true |- _ => apply Qeq_bool_iff in H end;
    (split; [lra|]); eexists _, _; (split; [reflexivity|]); split; cbn [zk zx zy]; lra.
  - intros y Hx Hy. rewrite Hx, Hy. eexists. split; [reflexivity|].
    unfold zt_translate, zt_scale, zoomIdentity. cbn [num_neg num_is_zero andb].
    destruct (Qeq_bool (w / 2) 0); destruct (Qeq_bool (h / 2) 0); reflexivity.
Qed.

End SidebarFacts.

(* ------------------------------------------------------------------ *)
(** ** Concrete instances, with the runtime [ConcreteRuntime.runtime] *)

Lemma edge_endpoints_witness :
  skipped (trim w_edge_line) = false /\
  Regex.exec Regex.NODE_ATTR_REGEX (trim w_edge_line) = None /\
  Regex.exec Regex.EDGE_REGEX (trim w_edge_line) =
    Some (caps_of Regex.EDGE_REGEX (trim w_edge_line)) /\
  map_get "A" (ps_nodes (@process_line ConcreteRuntime.runtime init_pstate w_edge_line)) =
    Some (obj_spread (node_base "A" "A") default_style).
Proof.
  assert (H1 : skipped (trim w_edge_line) = false) by (vm_compute; reflexivity).
  assert (H2 : Regex.exec Regex.NODE_ATTR_REGEX (trim w_edge_line) = None)
    by (vm_compute; reflexivity).
  assert (H3 : Regex.exec Regex.EDGE_REGEX (trim w_edge_line) =
               Some (caps_of Regex.EDGE_REGEX (trim w_edge_line))) by (vm_compute; reflexivity).
  split; [exact H1|split; [exact H2|split; [exact H3|]]].
  destruct (@edge_endpoints ConcreteRuntime.runtime init_pstate w_edge_line _ H1 H2 H3)
    as [HA _].
  exact HA.
Defined.

Lemma parse_attribute_pair_witness :
  attr_split w_attrs = app [] [("label=" ++ dq "a, b"); "weight=5"] /\
  split_char "="%char ("label=" ++ dq "a, b") = ["label"; dq "a, b"] /\
  trim "label" <> "" /\ trim "label" <> "__proto__" /\ trim (dq "a, b") <> "" /\
  Forall (fun p => head (map trim (split_char "="%char p)) <> Some (trim "label")) ["weight=5"] /\
  @parseAttributes ConcreteRuntime.runtime w_attrs !! "label" = Some (VStr "a, b").
Proof.
  assert (H1 : attr_split w_attrs = app [] [("label=" ++ dq "a, b"); "weight=5"])
    by (vm_compute; reflexivity).
  assert (H2 : split_char "="%char ("label=" ++ dq "a, b") = ["label"; dq "a, b"])
    by (vm_compute; reflexivity).
  assert (H3 : trim "label" <> "") by (intros H; vm_compute in H; discriminate).
  assert (H4 : trim "label" <> "__proto__") by (intros H; vm_compute in H; discriminate).
  assert (H5 : trim (dq "a, b") <> "") by (intros H; vm_compute in H; discriminate).
  assert (H6 : Forall (fun p => head (map trim (split_char "="%char p)) <> Some (trim "label"))
                 ["weight=5"])
    by (repeat constructor; intros H; vm_compute in H; discriminate).
  split; [exact H1|split; [exact H2|split; [exact H3|split; [exact H4|split; [exact H5|split; [exact H6|]]]]]].
  exact (proj1 (@parse_attribute_pair ConcreteRuntime.runtime) w_attrs [] _ _ _ _ H1 H2 H3 H4 H5 H6).
Defined.

Lemma node_ids_unique_witness :
  split_char (chr 10) (text_of w_decl_lines) =
    app [dq "A" ++ " [color=red];"; dq "A" ++ " -> " ++ dq "B" ++ ";"]
        ((dq "A" ++ " [color=blue];") :: []) /\
  declared_id (dq "A" ++ " [color=blue];") = Some "A" /\
  Forall (fun l => declared_id l <> Some "A") [] /\
  option_map (fun nd => nd !! "color")
    (map_get "A" (ps_nodes (@run_lines ConcreteRuntime.runtime init_pstate
                              (split_char (chr 10) (text_of w_decl_lines))))) =
    Some (Some (VStr "blue")).
Proof.
  assert (H1 : split_char (chr 10) (text_of w_decl_lines) =
    app [dq "A" ++ " [color=red];"; dq "A" ++ " -> " ++ dq "B" ++ ";"]
        ((dq "A" ++ " [color=blue];") :: [])) by (vm_compute; reflexivity).
  assert (H2 : declared_id (dq "A" ++ " [color=blue];") = Some "A") by (vm_compute; reflexivity).
  assert (H3 : Forall (fun l => declared_id l <> Some "A") []) by constructor.
  split; [exact H1|split; [exact H2|split; [exact H3|]]].
  destruct (@node_ids_unique ConcreteRuntime.runtime (text_of w_decl_lines)) as (_ & _ & H & _).
  cbv zeta in H. rewrite (H _ _ _ _ H1 H2 H3). vm_compute. reflexivity.
Defined.

Lemma style_forward_witness :
  skipped (trim "node[color=red];") = false /\
  Regex.exec Regex.NODE_ATTR_REGEX (trim "node[color=red];") =
    Some (caps_of Regex.NODE_ATTR_REGEX (trim "node[color=red];")) /\
  ps_style (@process_line ConcreteRuntime.runtime init_pstate "node[color=red];") !! "color" =
    Some (VStr "red").
Proof.
  assert (H1 : skipped (trim "node[color=red];") = false) by (vm_compute; reflexivity).
  assert (H2 : Regex.exec Regex.NODE_ATTR_REGEX (trim "node[color=red];") =
    Some (caps_of Regex.NODE_ATTR_REGEX (trim "node[color=red];"))) by (vm_compute; reflexivity).
  split; [exact H1|split; [exact H2|]].
  rewrite (proj1 (@style_forward ConcreteRuntime.runtime) init_pstate _ _ H1 H2).
  vm_compute. reflexivity.
Defined.

Lemma parser_permissive_witness :
  Regex.exec Regex.NODE_ATTR_REGEX (trim "garbage") = None /\
  Regex.exec Regex.EDGE_REGEX (trim "garbage") = None /\
  Regex.exec Regex.NODE_DEF_REGEX (trim "garbage") = None /\
  @process_line ConcreteRuntime.runtime init_pstate "garbage" = init_pstate /\
  includes "junk" (String "="%char EmptyString) = false /\
  @pa_step ConcreteRuntime.runtime ∅ "junk" = ∅.
Proof.
  assert (H1 : Regex.exec Regex.NODE_ATTR_REGEX (trim "garbage") = None) by (vm_compute; reflexivity).
  assert (H2 : Regex.exec Regex.EDGE_REGEX (trim "garbage") = None) by (vm_compute; reflexivity).
  assert (H3 : Regex.exec Regex.NODE_DEF_REGEX (trim "garbage") = None) by (vm_compute; reflexivity).
  assert (H4 : includes "junk" (String "="%char EmptyString) = false) by (vm_compute; reflexivity).
  destruct (@parser_permissive ConcreteRuntime.runtime) as (_ & P2 & _ & P4 & _).
  split; [exact H1|split; [exact H2|split; [exact H3|split; [|split; [exact H4|]]]]].
  - exact (P2 init_pstate "garbage" H1 H2 H3).
  - exact (P4 ∅ "junk" H4).
Defined.

Lemma edge_label_string_witness :
  skipped (trim w_label_line) = false /\
  Regex.exec Regex.NODE_ATTR_REGEX (trim w_label_line) = None /\
  Regex.exec Regex.EDGE_REGEX (trim w_label_line) =
    Some (caps_of Regex.EDGE_REGEX (trim w_label_line)) /\
  exists label, ps_links (@process_line ConcreteRuntime.runtime init_pstate w_label_line) =
                  [mk_link "A" "B" label].
Proof.
  assert (H1 : skipped (trim w_label_line) = false) by (vm_compute; reflexivity).
  assert (H2 : Regex.exec Regex.NODE_ATTR_REGEX (trim w_label_line) = None)
    by (vm_compute; reflexivity).
  assert (H3 : Regex.exec Regex.EDGE_REGEX (trim w_label_line) =
               Some (caps_of Regex.EDGE_REGEX (trim w_label_line))) by (vm_compute; reflexivity).
  split; [exact H1|split; [exact H2|split; [exact H3|]]].
  destruct (@edge_label_string ConcreteRuntime.runtime init_pstate w_label_line _ H1 H2 H3)
    as (label & Hl & _).
  exists label. exact Hl.
Defined.

Lemma layout_switch_witness :
  let s := @init_simulation ConcreteRuntime.runtime LGrid 800 600 w_graph in
  let s' := snd (@relayout ConcreteRuntime.runtime LRadial 800 600 w_graph s) in
  heap_ok s /\
  @layout_effect ConcreteRuntime.runtime (Some s) (Some (800%Q, 600%Q)) LRadial w_graph = Some s' /\
  force_at s "x" <> None /\ force_at s' "x" = None /\ force_at s' "y" = None.
Proof.
  intros s s'.
  assert (H1 : heap_ok s) by (unfold heap_ok; refine (bool_decide_unpack _ _); vm_compute; reflexivity).
  assert (H2 : @layout_effect ConcreteRuntime.runtime (Some s) (Some (800%Q, 600%Q)) LRadial w_graph
               = Some s') by reflexivity.
  destruct (@layout_switch ConcreteRuntime.runtime LRadial 800 600 w_graph s s' H1 H2)
    as (_ & H & _).
  split; [exact H1|split; [exact H2|split; [|split]]].
  - unfold s. vm_compute. discriminate.
  - apply H; refine (bool_decide_unpack _ _); vm_compute; reflexivity.
  - apply H; refine (bool_decide_unpack _ _); vm_compute; reflexivity.
Defined.

Lemma grid_layout_witness :
  let s := new_simulation (g_nodes w_graph) in
  heap_ok s /\
  force_at (snd (@applyLayoutForces ConcreteRuntime.runtime LGrid 800 600 w_graph s)) "charge"
    = Some (FManyBody (-50)) /\
  grid_cols 3 = 3%Z.
Proof.
  intros s.
  assert (H1 : heap_ok s) by (unfold heap_ok; refine (bool_decide_unpack _ _); vm_compute; reflexivity).
  destruct (@grid_layout ConcreteRuntime.runtime 800 600 w_graph s H1) as (_ & _ & Hc & _).
  split; [exact H1|split; [exact Hc|vm_compute; reflexivity]].
Defined.

(** Without the default style setting id or label, an edge still gives
    the style's label to both implicitly created endpoints. *)
Lemma edge_style_label_cex :
  map (fun nd => (nd !! "id", nd !! "label"))
    (g_nodes (@parseDotData ConcreteRuntime.runtime
       (text_of ["node [label=" ++ dq "x" ++ "];"; dq "A" ++ " -> " ++ dq "B" ++ ";"])))
  = [(Some (VStr "A"), Some (VStr "x")); (Some (VStr "B"), Some (VStr "x"))].
Proof. vm_compute. reflexivity. Qed.

(** A pair with an empty value is dropped, and a quoted value containing
    [=] is cut at it. *)
Lemma parseAttributes_empty_value_cex :
  @parseAttributes ConcreteRuntime.runtime "label=" = ∅ /\
  @parseAttributes ConcreteRuntime.runtime ("label=" ++ dq "a=b") !! "label"
    = Some (VStr (String (chr 34) "a")).
Proof. split; vm_compute; reflexivity. Qed.

(** Two nodes carrying the same id field: an attribute block may set
    [id]. *)
Lemma node_id_attribute_cex :
  map (fun nd => nd !! "id")
    (g_nodes (@parseDotData ConcreteRuntime.runtime
       (text_of [dq "A" ++ " [id=B];"; dq "B" ++ ";"])))
  = [Some (VStr "B"); Some (VStr "B")].
Proof. vm_compute. reflexivity. Qed.

(** The numeric reinterpretation on the examples of the specification. *)
Lemma parseAttributes_examples :
  let a := "a=" ++ dq "5" ++ ", b=0.1 sec, c=1e2" in
  @parseAttributes ConcreteRuntime.runtime a !! "a" = Some (VNum (JFin 5)) /\
  @parseAttributes ConcreteRuntime.runtime a !! "b" = Some (VStr "0.1 sec") /\
  @parseAttributes ConcreteRuntime.runtime a !! "c" = Some (VStr "1e2").
Proof. vm_compute. repeat split; reflexivity. Qed.

(* ------------------------------------------------------------------ *)
(** ** Concrete instances of the further properties *)

Lemma parseAttributes_keys_witness :
  @parseAttributes ConcreteRuntime.runtime w_attrs !! "label" = Some (VStr "a, b") /\
  "label" <> "" /\ "label" <> "__proto__" /\ trim "label" = "label" /\
  all_chars (not_char "="%char) "label" = true.
Proof.
  assert (H : @parseAttributes ConcreteRuntime.runtime w_attrs !! "label" = Some (VStr "a, b"))
    by (vm_compute; reflexivity).
  split; [exact H|]. exact (@parseAttributes_keys ConcreteRuntime.runtime _ _ _ H).
Defined.

Lemma grid_targets_injective_witness :
  (0 < 3)%nat /\ grid_x 800 (grid_cols 3) 4 = grid_x 800 (grid_cols 3) 4 /\ (4 = 4)%nat.
Proof.
  split; [lia|split; [reflexivity|]].
  apply (grid_targets_injective 800 600 3 4 4); [lia|reflexivity|reflexivity].
Defined.

Lemma relayout_history_independent_witness :
  heap_ok w_sim /\
  force_at (snd (@relayout ConcreteRuntime.runtime LForce 800 600 w_graph
                   (snd (@relayout ConcreteRuntime.runtime LSubset 800 600 w_graph w_sim)))) "x" =
  force_at (snd (@relayout ConcreteRuntime.runtime LForce 800 600 w_graph w_sim)) "x".
Proof.
  assert (Hok : heap_ok w_sim)
    by (unfold heap_ok; refine (bool_decide_unpack _ _); vm_compute; reflexivity).
  split; [exact Hok|].
  exact (proj1 (@relayout_history_independent ConcreteRuntime.runtime
    LSubset 800 600 w_graph LForce 800 600 w_graph w_sim Hok) "x").
Defined.

Lemma selection_highlight_matches_sidebar_witness :
  "A" <> "" /\ In w_node_b w_nodes /\ w_node_b !! "id" = Some (VStr "B") /\
  (node_opacity (Some "A") None w_sb_links w_node_b = 1%Q <->
   "B" = "A" \/ exists e, In e (neighbors w_nodes w_sb_links (Some "A")) /\
                        exists d', nb_node e = Some d' /\ d' !! "id" = Some (VStr "B")).
Proof.
  assert (H1 : "A" <> "") by (intros H; vm_compute in H; discriminate).
  assert (H2 : In w_node_b w_nodes) by (right; left; reflexivity).
  assert (H3 : w_node_b !! "id" = Some (VStr "B")) by (vm_compute; reflexivity).
  split; [exact H1|split; [exact H2|split; [exact H3|]]].
  exact (selection_highlight_matches_sidebar w_nodes w_sb_links "A" None w_node_b "B" H1 H2 H3).
Defined.

Lemma link_type_highlight_witness :
  no_selection None = true /\ "rel" <> "" /\ w_node_b !! "id" = Some (VStr "B") /\
  (node_opacity None (Some "rel") w_sb_links w_node_b = 1%Q <->
   exists l, In l w_sb_links /\ sl_label l = "rel" /\
     (ep_id (sl_source l) = Some (VStr "B") \/ ep_id (sl_target l) = Some (VStr "B"))).
Proof.
  assert (H1 : no_selection None = true) by reflexivity.
  assert (H2 : "rel" <> "") by (intros H; vm_compute in H; discriminate).
  assert (H3 : w_node_b !! "id" = Some (VStr "B")) by (vm_compute; reflexivity).
  split; [exact H1|split; [exact H2|split; [exact H3|]]].
  exact (link_type_highlight None w_sb_links "rel" w_node_b "B" H1 H2 H3).
Defined.

Lemma filteredNodes_outcome_witness :
  "al" <> "" /\
  (@filteredNodes ConcreteRuntime.runtime w_nodes "al" = None <->
   Exists (fun n => ~ label_is_string n) w_nodes).
Proof.
  assert (H : "al" <> "") by (intros H; vm_compute in H; discriminate).
  split; [exact H|]. exact (proj1 (@filteredNodes_outcome ConcreteRuntime.runtime w_nodes "al" H)).
Defined.

Lemma filteredNodes_results_witness :
  @filteredNodes ConcreteRuntime.runtime w_nodes "AL" = Some [w_node_a] /\
  (length [w_node_a] <= 10)%nat.
Proof.
  assert (H : @filteredNodes ConcreteRuntime.runtime w_nodes "AL" = Some [w_node_a])
    by (vm_compute; reflexivity).
  split; [exact H|]. exact (proj1 (@filteredNodes_results ConcreteRuntime.runtime w_nodes "AL" _ H)).
Defined.

Lemma auto_center_targets_witness :
  "A" <> "" /\ selectedNode w_nodes (Some "A") = Some w_node_a /\
  exists t, auto_center w_nodes (Some "A") true (Some (800%Q, 600%Q)) = Some t /\ (zk t == 13 # 10)%Q.
Proof.
  assert (H1 : "A" <> "") by (intros H; vm_compute in H; discriminate).
  assert (H2 : selectedNode w_nodes (Some "A") = Some w_node_a) by (vm_compute; reflexivity).
  split; [exact H1|split; [exact H2|]].
  destruct (proj1 (auto_center_targets w_nodes "A" 800 600 w_node_a H1 H2) 10%Q 20%Q
              ltac:(vm_compute; reflexivity) ltac:(vm_compute; reflexivity))
    as (t & Ht & Hk & _).
  exists t. split; assumption.
Defined.
